(** * vhdl-tb-gen: a shallow embedding of [index.js]

    The generator reads a VHDL file, collects per-entity metadata in a first
    pass over the syntax tree, and interprets the directives found in line
    comments in a second pass, appending VHDL text to an output buffer.

    Conventions of the embedding.
    - A JavaScript string is a [string]; a character stands for one code unit
      below 256.  Line feed has code 10.
    - [undefined] is [None]; where the source interpolates a possibly
      undefined value into a template literal, [show] renders it.
    - An object used as a table is an insertion-ordered list of its own
      properties ([JS.obj]).  A read [o[k]] goes through the prototype chain
      ([JS.read]): a key that is no own property of a table finds the member
      of [Object.prototype] of that name, when there is one.
    - The names the first pass takes from the tree are VHDL identifiers; its
      tables keep what is stored under a name as an own entry.
    - An uncaught exception ends the run: [Err AssertionError] for a failed
      [assert], [Err TypeError] for a property read or call on [undefined].
    - The tree-sitter nodes are records holding the texts and children the
      source reads from them. *)

From Stdlib Require Import Bool Arith NArith ZArith Lia List Ascii String DecimalString
  DecimalNat.
Import ListNotations.
Open Scope string_scope.

(* ================================================================= *)
(** ** JavaScript strings and objects *)

Module JS.

Definition LF : ascii := "010"%char.
Definition CR : ascii := "013"%char.
Definition nl : string := String LF "".

(** [WhiteSpace] and [LineTerminator] code units below 256: TAB, LF, VT, FF,
    CR, SP and NBSP.  This is the set of [\s] and of [String.prototype.trim]. *)
Definition is_space (c : ascii) : bool :=
  let n := N_of_ascii c in
  (((9 <=? n) && (n <=? 13)) || (n =? 32) || (n =? 160))%N.

(** The characters the regular expression dot does not match. *)
Definition is_line_terminator (c : ascii) : bool :=
  Ascii.eqb c LF || Ascii.eqb c CR.

(** [\w] is [[A-Za-z0-9_]]. *)
Definition is_word (c : ascii) : bool :=
  let n := N_of_ascii c in
  (((48 <=? n) && (n <=? 57)) || ((65 <=? n) && (n <=? 90))
   || ((97 <=? n) && (n <=? 122)) || (n =? 95))%N.

Definition is_empty (s : string) : bool :=
  match s with EmptyString => true | String _ _ => false end.

(** [Boolean(s)] for a string [s]. *)
Definition truthy (s : string) : bool := negb (is_empty s).

(** [o || d] where [o] is a string or [undefined]. *)
Definition or_else (o : option string) (d : string) : string :=
  match o with
  | Some s => if truthy s then s else d
  | None => d
  end.

(** Template-literal rendering of a string or [undefined]. *)
Definition show (o : option string) : string :=
  match o with Some s => s | None => "undefined" end.

Fixpoint trimStart (s : string) : string :=
  match s with
  | EmptyString => EmptyString
  | String c r => if is_space c then trimStart r else s
  end.

Fixpoint trimEnd (s : string) : string :=
  match s with
  | EmptyString => EmptyString
  | String c r =>
      match trimEnd r with
      | EmptyString => if is_space c then EmptyString else String c EmptyString
      | r' => String c r'
      end
  end.

Definition trim (s : string) : string := trimEnd (trimStart s).

Definition startsWith (s p : string) : bool := String.prefix p s.

(** [s.split(sep)] for a one-character separator. *)
Fixpoint split (sep : ascii) (s : string) : list string :=
  match s with
  | EmptyString => [EmptyString]
  | String c r =>
      if Ascii.eqb c sep then EmptyString :: split sep r
      else match split sep r with
           | [] => [String c EmptyString]
           | h :: t => String c h :: t
           end
  end.

Definition join (sep : string) (l : list string) : string := String.concat sep l.

(** [n.toString()] for a non-negative integer, as interpolated in a template. *)
Definition of_nat (n : nat) : string := NilZero.string_of_uint (Nat.to_uint n).

(** The longest prefix whose characters satisfy [p], and the rest. *)
Fixpoint span (p : ascii -> bool) (s : string) : string * string :=
  match s with
  | EmptyString => (EmptyString, EmptyString)
  | String c r =>
      if p c then let (a, b) := span p r in (String c a, b)
      else (EmptyString, s)
  end.

Fixpoint all (p : ascii -> bool) (s : string) : bool :=
  match s with
  | EmptyString => true
  | String c r => p c && all p r
  end.

(** [s] without the prefix [p], when it has it. *)
Fixpoint strip_prefix (p s : string) : option string :=
  match p, s with
  | EmptyString, _ => Some s
  | String a p', String b s' => if Ascii.eqb a b then strip_prefix p' s' else None
  | String _ _, EmptyString => None
  end.

(** [s] without the suffix [p], when it has it. *)
Fixpoint strip_suffix (p s : string) : option string :=
  if String.eqb s p then Some EmptyString
  else match s with
       | EmptyString => None
       | String c r => option_map (String c) (strip_suffix p r)
       end.

(** ASCII case folding, as the [i] flag compares characters. *)
Definition upper (c : ascii) : ascii :=
  let n := N_of_ascii c in
  if ((97 <=? n) && (n <=? 122))%N then ascii_of_N (n - 32) else c.

Fixpoint strip_prefix_ci (p s : string) : option string :=
  match p, s with
  | EmptyString, _ => Some s
  | String a p', String b s' =>
      if Ascii.eqb (upper a) (upper b) then strip_prefix_ci p' s' else None
  | String _ _, EmptyString => None
  end.

(** *** Objects as insertion-ordered property lists *)

Definition obj (V : Type) : Type := list (string * V).

(** The own property [k] of [o], when it has one. *)
Fixpoint get {V} (o : obj V) (k : string) : option V :=
  match o with
  | [] => None
  | (k', v) :: r => if String.eqb k' k then Some v else get r k
  end.

(** The methods of [Object.prototype], each with the name of the function
    it holds. *)
Definition prototype_methods : list (string * string) :=
  [("constructor", "Object");
   ("__defineGetter__", "__defineGetter__");
   ("__defineSetter__", "__defineSetter__");
   ("hasOwnProperty", "hasOwnProperty");
   ("__lookupGetter__", "__lookupGetter__");
   ("__lookupSetter__", "__lookupSetter__");
   ("isPrototypeOf", "isPrototypeOf");
   ("propertyIsEnumerable", "propertyIsEnumerable");
   ("toString", "toString");
   ("valueOf", "valueOf");
   ("toLocaleString", "toLocaleString")].

(** What a template literal makes of the member [k] of [Object.prototype]:
    the source text of a built-in method; for the accessor [__proto__],
    which gives [Object.prototype] itself, the text of a plain object. *)
Definition inherited (k : string) : option string :=
  match get prototype_methods k with
  | Some f => Some ("function " ++ f ++ "() { [native code] }")
  | None => if String.eqb k "__proto__" then Some "[object Object]" else None
  end.

(** The outcome of the read [o[k]] on a table [o]. *)
Inductive property (V : Type) : Type :=
| Own (v : V)
| Inherited (text : string)
| Undefined.
Arguments Own {V} v.
Arguments Inherited {V} text.
Arguments Undefined {V}.

(** [o[k]]: the own property, or else what [Object.prototype] has. *)
Definition read {V} (o : obj V) (k : string) : property V :=
  match get o k with
  | Some v => Own v
  | None =>
      match inherited k with
      | Some text => Inherited text
      | None => Undefined
      end
  end.

(** [`${o[k]}`] for a table of strings. *)
Definition interpolate (p : property string) : string :=
  match p with
  | Own s => s
  | Inherited text => text
  | Undefined => "undefined"
  end.

(** The own enumerable properties of the value of [o[k]], as
    [Object.entries] and [Object.keys] list them: a member of
    [Object.prototype] has none, and [undefined] is no object. *)
Definition properties {V} (p : property (obj V)) : option (obj V) :=
  match p with
  | Own o => Some o
  | Inherited _ => Some []
  | Undefined => None
  end.

(** [o[k] = v]: an existing property keeps its place, a new one goes last. *)
Fixpoint set {V} (o : obj V) (k : string) (v : V) : obj V :=
  match o with
  | [] => [(k, v)]
  | (k', v') :: r => if String.eqb k' k then (k', v) :: r else (k', v') :: set r k v
  end.

Definition is_digit (c : ascii) : bool :=
  let n := N_of_ascii c in ((48 <=? n) && (n <=? 57))%N.

Fixpoint digits_value (acc : N) (s : string) : N :=
  match s with
  | EmptyString => acc
  | String c r => digits_value (acc * 10 + (N_of_ascii c - 48)) r
  end.

(** A property key is an array index when it is the canonical decimal form
    of an integer in [0, 2^32 - 2]. *)
Definition array_index (k : string) : option N :=
  match k with
  | EmptyString => None
  | String c r =>
      if all is_digit k && (negb (Ascii.eqb c "0"%char) || is_empty r)
      then let v := digits_value 0 k in
           if (v <=? 4294967294)%N then Some v else None
      else None
  end.

Fixpoint insert_by_index {V} (e : N * (string * V)) (l : list (N * (string * V)))
  : list (N * (string * V)) :=
  match l with
  | [] => [e]
  | h :: t => if (fst e <=? fst h)%N then e :: l else h :: insert_by_index e t
  end.

Fixpoint index_entries {V} (o : obj V) : list (N * (string * V)) :=
  match o with
  | [] => []
  | (k, v) :: r =>
      match array_index k with
      | Some n => insert_by_index (n, (k, v)) (index_entries r)
      | None => index_entries r
      end
  end.

Definition named_entries {V} (o : obj V) : obj V :=
  filter (fun e => match array_index (fst e) with Some _ => false | None => true end) o.

(** [Object.entries(o)]: array-index keys in ascending numeric order, then
    the other keys in insertion order. *)
Definition entries {V} (o : obj V) : list (string * V) :=
  map snd (index_entries o) ++ named_entries o.

(** [Object.keys(o)]. *)
Definition keys {V} (o : obj V) : list string := map fst (entries o).

End JS.

(* ================================================================= *)
(** ** Exceptions *)

Inductive error : Type := AssertionError | TypeError.

Inductive result (A : Type) : Type :=
| Ok (a : A)
| Err (e : error).
Arguments Ok {A} a.
Arguments Err {A} e.

Definition bind {A B} (r : result A) (f : A -> result B) : result B :=
  match r with
  | Ok a => f a
  | Err e => Err e
  end.

Notation "x <- r ;; k" := (bind r (fun x => k))
  (at level 61, r at next level, right associativity).

(** [assert.ok(v)] for an object-or-undefined [v]. *)
Definition assert_ok {A} (v : option A) : result A :=
  match v with Some a => Ok a | None => Err AssertionError end.

(** Reading a property of, or calling, a value that may be [undefined]. *)
Definition deref {A} (v : option A) : result A :=
  match v with Some a => Ok a | None => Err TypeError end.

Fixpoint mapM {A B} (f : A -> result B) (l : list A) : result (list B) :=
  match l with
  | [] => Ok []
  | a :: r => b <- f a ;; bs <- mapM f r ;; Ok (b :: bs)
  end.

(** What the run sends to the console. *)
Inductive message : Type :=
| Log (s : string)
| Warn (s : string).

(* ================================================================= *)
(** ** Type bounds *)

(** The three children of a [simple_range] node, by their text. *)
Record simple_range : Type := {
  left : string;
  kind : string;
  right : string
}.

(** The ranges [l downto r] and [l to r]. *)
Definition downto (l r : string) : simple_range :=
  {| left := l; kind := "downto"; right := r |}.

Definition upto (l r : string) : simple_range :=
  {| left := l; kind := "to"; right := r |}.

Record bounds : Type := {
  low : string;
  high : string;
  converter : string -> string
}.

(** [type.match(/^\w+/)?.[0]] *)
Definition match_word (s : string) : option string :=
  let w := fst (JS.span JS.is_word s) in
  if JS.is_empty w then None else Some w.

(** [case label:] against the switch discriminant. *)
Definition is_case (discr : option string) (label : string) : bool :=
  match discr with
  | Some n => String.eqb n label
  | None => false
  end.

Definition scalar_type (name : option string) : bool :=
  is_case name "bit" || is_case name "std_logic" || is_case name "std_ulogic".

Definition vector_type (name : option string) : bool :=
  is_case name "std_ulogic_vector" || is_case name "std_logic_vector".

(** The local constant [length] of the vector case. *)
Definition length_expr (r : simple_range) : string :=
  let reversed := String.eqb (kind r) "to" in
  "((" ++ (if reversed then right r else left r) ++ ") - ("
       ++ (if reversed then left r else right r) ++ ") + 1)".

Definition no_bounds : bounds :=
  {| low := ""; high := ""; converter := fun _ => "" |}.

(** [getTypeBounds(type, range)], with the warnings it sends to the console. *)
Definition getTypeBounds (type : string) (range : option simple_range)
  : bounds * list message :=
  let name := match_word type in
  if scalar_type name then
    ({| low := "0"; high := "1";
        converter := fun i => type ++ "'val(" ++ i ++ ")" |}, [])
  else if vector_type name then
    match range with
    | None =>
        (no_bounds,
         [Warn ("Incomplete type " ++ type ++ " without a range. ignoring it.")])
    | Some r =>
        let length := length_expr r in
        ({| low := "0"; high := "2 ** " ++ length ++ " - 1";
            converter := fun i =>
              JS.show name ++ "(to_unsigned(" ++ i ++ ", " ++ length ++ "))" |}, [])
    end
  else (no_bounds, [Warn ("Unknown type " ++ type ++ ". ignoring it.")]).

(* ================================================================= *)
(** ** First pass: the entity tables *)

(** An [interface_declaration] node: the identifier texts under its first
    child; of its third child the node type and the number of its children.
    The destructuring [[mode, type]] takes the first two of them: [int_mode]
    is the text of the first, [int_type] the text of the second and
    [int_range] the first [simple_range] under it, for as many as there
    are. *)
Record interface_declaration : Type := {
  int_ports : list string;
  int_indication : string;
  int_indication_children : nat;
  int_mode : string;
  int_type : string;
  int_range : option simple_range
}.

(** An [entity_head] node: its text and the [interface_declaration]s of its
    first [port_clause] (none when it has no port clause). *)
Record entity_head : Type := {
  head_text : string;
  head_interfaces : list interface_declaration
}.

(** An [entity_declaration] node: the text of its [entity] field, the texts
    of the [library_clause] and [use_clause] nodes under its parent, and its
    first [entity_head]. *)
Record entity_declaration : Type := {
  ent_name : option string;
  ent_clauses : list string;
  ent_head : option entity_head
}.

(** A value of [entityPins[name]]: [{mode, type, ...bounds}]. *)
Record pin : Type := {
  pin_mode : string;
  pin_type : string;
  pin_bounds : bounds
}.

Record tables : Type := {
  entityClauses : JS.obj string;
  entityPins : JS.obj (JS.obj pin);
  entityHeads : JS.obj string
}.

Definition no_tables : tables :=
  {| entityClauses := []; entityPins := []; entityHeads := [] |}.

(** The inner loop [for (const port of ports)]. *)
Definition add_ports (ports : list string) (p : pin) (pins : JS.obj pin) : JS.obj pin :=
  fold_left (fun acc port => JS.set acc (JS.trim port) p) ports pins.

(** One iteration of [for (const int of interfaces)].  The message of the
    assertion reads [mode.type] before [assert.equal] compares the node
    types, and [type.text] is read after it: [mode] is [undefined] when the
    third child has no child, [type] when it has fewer than two. *)
Definition add_interface (acc : JS.obj pin * list message) (int : interface_declaration)
  : result (JS.obj pin * list message) :=
  let (pins, console) := acc in
  if Nat.ltb (int_indication_children int) 1 then Err TypeError
  else if String.eqb (int_indication int) "simple_mode_indication" then
    if Nat.ltb (int_indication_children int) 2 then Err TypeError
    else
      let (b, warnings) := getTypeBounds (int_type int) (int_range int) in
      let p := {| pin_mode := int_mode int; pin_type := int_type int; pin_bounds := b |} in
      Ok (add_ports (int_ports int) p pins, (console ++ warnings)%list)
  else Err AssertionError.

Fixpoint add_interfaces (ints : list interface_declaration)
  (acc : JS.obj pin * list message) : result (JS.obj pin * list message) :=
  match ints with
  | [] => Ok acc
  | int :: r => acc' <- add_interface acc int ;; add_interfaces r acc'
  end.

(** One iteration of the loop over the [entity_declaration] nodes.  The
    assignment [entityPins[name] ||= {}] keeps what the table has under
    [name] and starts from no port otherwise. *)
Definition add_entity (acc : tables * list message) (node : entity_declaration)
  : result (tables * list message) :=
  let (T, console) := acc in
  match ent_name node with
  | None => Err AssertionError
  | Some name =>
      if JS.truthy name then
        let clauses :=
          fold_left (fun c sub => c ++ sub ++ JS.nl) (ent_clauses node) "" in
        head <- deref (ent_head node) ;;
        let pins0 := match JS.properties (JS.read (entityPins T) name) with
                     | Some o => o
                     | None => []
                     end in
        r <- add_interfaces (head_interfaces head) (pins0, console) ;;
        Ok ({| entityClauses := JS.set (entityClauses T) name clauses;
               entityPins := JS.set (entityPins T) name (fst r);
               entityHeads := JS.set (entityHeads T) name (head_text head) |},
            snd r)
      else Err AssertionError
  end.

Fixpoint first_pass_from (nodes : list entity_declaration)
  (acc : tables * list message) : result (tables * list message) :=
  match nodes with
  | [] => Ok acc
  | node :: r => acc' <- add_entity acc node ;; first_pass_from r acc'
  end.

Definition first_pass (nodes : list entity_declaration) : result (tables * list message) :=
  first_pass_from nodes (no_tables, []).

(* ================================================================= *)
(** ** The regular expressions of the second pass *)

Definition first_char (s : string) : option ascii :=
  match s with
  | EmptyString => None
  | String c _ => Some c
  end.

Definition word_char (c : option ascii) : bool :=
  match c with
  | Some a => JS.is_word a
  | None => false
  end.

(** [\b] between two neighbouring characters, or at an end of the input. *)
Definition word_boundary (prev next : option ascii) : bool :=
  xorb (word_char prev) (word_char next).

Definition not_line_terminator (c : ascii) : bool := negb (JS.is_line_terminator c).

(** [text.match(/^\S+/)?.[0]] *)
Definition keyword (text : string) : option string :=
  let w := fst (JS.span (fun c => negb (JS.is_space c)) text) in
  if JS.is_empty w then None else Some w.

(** One attempt of [/\bevery (.+);$/i] at the position that follows [prev].
    The pattern's letters are ASCII, so [JS.upper] decides the comparison
    under the [i] flag. *)
Definition every_at (prev : option ascii) (s : string) : option string :=
  if word_boundary prev (first_char s) then
    match JS.strip_prefix_ci "every " s with
    | Some r =>
        match JS.strip_suffix ";" r with
        | Some x => if JS.truthy x && JS.all not_line_terminator x then Some x else None
        | None => None
        end
    | None => None
    end
  else None.

(** The leftmost position at which the attempt succeeds. *)
Fixpoint search_every (prev : option ascii) (s : string) : option string :=
  match every_at prev s with
  | Some x => Some x
  | None =>
      match s with
      | EmptyString => None
      | String c r => search_every (Some c) r
      end
  end.

(** [text.match(/\bevery (.+);$/i)?.[1]] *)
Definition re_sync_every (text : string) : option string := search_every None text.

Definition not_rparen (c : ascii) : bool := negb (Ascii.eqb c ")"%char).

(** [text.match(/^sync \(([^)]+)\)/)?.[1]] *)
Definition re_sync_clock (text : string) : option string :=
  match JS.strip_prefix "sync (" text with
  | Some r =>
      let (x, rest) := JS.span not_rparen r in
      if JS.truthy x && JS.startsWith rest ")" then Some x else None
  | None => None
  end.

(** [text.match(/^every \(([^)]+)\);$/)?.[1]] *)
Definition re_every_list (text : string) : option string :=
  match JS.strip_prefix "every (" text with
  | Some r =>
      let (x, rest) := JS.span not_rparen r in
      if JS.truthy x && String.eqb rest ");" then Some x else None
  | None => None
  end.

(** [text.match(/^set \((.+)\);$/)?.[1]] *)
Definition re_set (text : string) : option string :=
  match JS.strip_prefix "set (" text with
  | Some r =>
      match JS.strip_suffix ");" r with
      | Some x => if JS.truthy x && JS.all not_line_terminator x then Some x else None
      | None => None
      end
  | None => None
  end.

(* ================================================================= *)
(** ** Second pass: the directive interpreter *)

Record tb_state : Type := {
  entity : option string;
  testbench : string;
  sync : string;
  clock : string
}.

Definition defaultState : tb_state :=
  {| entity := Some ""; testbench := ""; sync := "1 ns"; clock := "" |}.

(** The variables [output] and [state] of the second pass, and the console. *)
Record machine : Type := {
  output : string;
  state : option tb_state;
  console : list message
}.

Definition start : machine := {| output := ""; state := None; console := [] |}.

Definition emit (m : machine) (s : string) : machine :=
  {| output := output m ++ s; state := state m; console := console m |}.

Abbreviation nl := JS.nl.

(** [case 'testbench'] *)
Definition on_testbench (T : tables) (m : machine) (text : string) : result machine :=
  let tokens := filter JS.truthy (JS.split " " text) in
  let name := nth_error tokens 1 in
  let ent := nth_error tokens 3 in
  let st := {| entity := ent;
               testbench := if is_case name "tb"
                            then JS.show ent ++ "_tb"
                            else JS.show ent ++ "_tb_" ++ JS.show name;
               sync := sync defaultState;
               clock := clock defaultState |} in
  Ok {| output := output m
                  ++ JS.interpolate (JS.read (entityClauses T) (JS.show (entity st))) ++ nl
                  ++ "entity " ++ testbench st ++ " is end;" ++ nl ++ nl;
        state := Some st;
        console := console m |}.

(** [case 'sync'] *)
Definition on_sync (m : machine) (text : string) : result machine :=
  st <- assert_ok (state m) ;;
  Ok {| output := output m;
        state := Some {| entity := entity st;
                         testbench := testbench st;
                         sync := JS.or_else (re_sync_every text) "1 ns";
                         clock := JS.or_else (re_sync_clock text) "" |};
        console := console m |}.

(** One iteration of the signal-declaration loop of [case 'begin']. *)
Definition signal_decl (st : tb_state) (e : string * pin) : string :=
  "signal " ++ fst e ++ " : " ++ pin_type (snd e)
  ++ (if String.eqb (fst e) (clock st) then " := '0'" else "") ++ ";" ++ nl.

(** The port-map loop of [case 'begin'], from index [i] on. *)
Fixpoint port_map (i : nat) (pins : list string) : string :=
  match pins with
  | [] => ""
  | pin :: r =>
      (if Nat.eqb i 0 then "" else ", ") ++ pin ++ " => " ++ pin ++ port_map (S i) r
  end.

(** [case 'begin'] *)
Definition on_begin (T : tables) (m : machine) : result machine :=
  st <- assert_ok (state m) ;;
  let key := JS.show (entity st) in
  let m1 := emit m ("architecture tb of " ++ testbench st ++ " is" ++ nl
                    ++ "component " ++ key ++ " "
                    ++ JS.interpolate (JS.read (entityHeads T) key) ++ nl
                    ++ "end component;" ++ nl ++ nl) in
  pins <- deref (JS.properties (JS.read (entityPins T) key)) ;;
  let m2 := emit m1 (String.concat "" (map (signal_decl st) (JS.entries pins))) in
  let m3 := emit m2 ("signal tb_done : bit := '0';" ++ nl
                     ++ "begin" ++ nl
                     ++ "dut : " ++ key ++ " port map("
                     ++ port_map 0 (JS.keys pins)
                     ++ ");" ++ nl ++ nl) in
  let m4 := if JS.truthy (clock st)
            then emit m3 (clock st ++ " <= not " ++ clock st ++ " after 0.5 * "
                          ++ sync st ++ " when tb_done = '0' else '0';" ++ nl ++ nl)
            else m3 in
  Ok (emit m4 ("process" ++ nl ++ "begin" ++ nl)).

(** The source of the signal list of [case 'every']: the parenthesised list,
    or else the keys of [pins] joined by commas. *)
Definition every_source (text : string) (pins : option (JS.obj pin)) : result string :=
  match re_every_list text with
  | Some l => if JS.truthy l then Ok l
              else p <- deref pins ;; Ok (JS.join "," (JS.keys p))
  | None => p <- deref pins ;; Ok (JS.join "," (JS.keys p))
  end.

(** [name => ({name, ...pins[name]})]: the spread copies the own properties
    of the pin found; it copies nothing from [undefined], nor from a member
    of [Object.prototype]. *)
Definition with_pin (pins : option (JS.obj pin)) (name : string)
  : result (string * option pin) :=
  p <- deref pins ;; Ok (name, JS.get p name).

(** The constant [names] of [case 'every']. *)
Definition every_names (text : string) (pins : option (JS.obj pin))
  : result (list (string * option pin)) :=
  src <- every_source text pins ;;
  mapM (with_pin pins) (map JS.trim (filter JS.truthy (JS.split "," src))).

(** The loop openings [names.map((n, i) => ...)], from index [i] on.  The
    call [n.converter(...)] throws when the lookup of [n.name] found no pin. *)
Fixpoint loop_heads (i : nat) (names : list (string * option pin)) : result (list string) :=
  match names with
  | [] => Ok []
  | (name, info) :: r =>
      p <- deref info ;;
      let v := "i_" ++ JS.of_nat i in
      let h := "for " ++ v ++ " in " ++ low (pin_bounds p) ++ " to "
               ++ high (pin_bounds p) ++ " loop" ++ nl
               ++ name ++ " <= " ++ converter (pin_bounds p) v ++ ";" ++ nl in
      hs <- loop_heads (S i) r ;;
      Ok (h :: hs)
  end.

Definition loop_ends (names : list (string * option pin)) : list string :=
  map (fun _ => "end loop;" ++ nl) names.

(** [case 'every'] *)
Definition on_every (T : tables) (m : machine) (text : string) : result machine :=
  st <- assert_ok (state m) ;;
  let pins := JS.properties (JS.read (entityPins T) (JS.show (entity st))) in
  names <- every_names text pins ;;
  heads <- loop_heads 0 names ;;
  let m1 := emit m (JS.join "" heads) in
  let m2 := emit m1 ("wait for " ++ sync st ++ ";" ++ nl) in
  Ok (emit m2 (JS.join "" (loop_ends names) ++ nl)).

(** [case 'set'] *)
Definition on_set (m : machine) (text : string) : result machine :=
  st <- assert_ok (state m) ;;
  let defs := JS.or_else (re_set text) "" in
  let m1 := emit m (JS.join "" (map (fun i => JS.trim i ++ ";" ++ nl)
                                    (filter JS.truthy (JS.split ";" defs)))) in
  Ok (emit m1 ("wait for " ++ sync st ++ ";" ++ nl ++ nl)).

(** [case 'end': case 'end;'] *)
Definition on_end (m : machine) : result machine :=
  st <- assert_ok (state m) ;;
  Ok {| output := output m ++ "tb_done <= '1';" ++ nl
                  ++ "wait;" ++ nl
                  ++ "end process;" ++ nl
                  ++ "end;" ++ nl ++ nl;
        state := None;
        console := (console m ++ [Log ("Generated testbench " ++ testbench st
                                       ++ " for " ++ JS.show (entity st) ++ ".")])%list |}.

(** [default] *)
Definition on_other (m : machine) (text : string) : result machine :=
  Ok {| output := output m;
        state := state m;
        console := (console m ++ [Warn ("Ignoring line comment: -- " ++ text)])%list |}.

Definition active (m : machine) : bool :=
  match state m with
  | Some _ => true
  | None => false
  end.

(** One iteration of the loop over the [line_comment] nodes; [node] is the
    text of the node's first child, when it has one. *)
Definition directive (T : tables) (m : machine) (node : option string) : result machine :=
  text <- assert_ok (option_map JS.trim node) ;;
  if negb (active m) && negb (JS.startsWith text "testbench ") then Ok m
  else
    let k := keyword text in
    if is_case k "testbench" then on_testbench T m text
    else if is_case k "sync" then on_sync m text
    else if is_case k "begin" then on_begin T m
    else if is_case k "every" then on_every T m text
    else if is_case k "set" then on_set m text
    else if is_case k "end" || is_case k "end;" then on_end m
    else on_other m text.

Fixpoint second_pass_from (T : tables) (nodes : list (option string)) (m : machine)
  : result machine :=
  match nodes with
  | [] => Ok m
  | node :: r => m' <- directive T m node ;; second_pass_from T r m'
  end.

Definition second_pass (T : tables) (nodes : list (option string)) : result machine :=
  second_pass_from T nodes start.

(* ================================================================= *)
(** ** Writing the output *)

(** [s.replace(/\n{3,}/g, '\n\n')]: [run] counts the line feeds that precede
    [s] in the current run; of every maximal run the first two are kept. *)
Fixpoint collapse (run : nat) (s : string) : string :=
  match s with
  | EmptyString => EmptyString
  | String c r =>
      if Ascii.eqb c JS.LF
      then if Nat.leb 2 run then collapse (S run) r else String c (collapse (S run) r)
      else String c (collapse 0 r)
  end.

(** [output.replace(/\n{3,}/g, '\n\n').trim() + '\n'] *)
Definition compose (output : string) : string :=
  JS.trim (collapse 0 output) ++ nl.

(** The whole run, from the parsed nodes to the text written. *)
Definition generate (entities : list entity_declaration) (comments : list (option string))
  : result string :=
  r <- first_pass entities ;;
  m <- second_pass (fst r) comments ;;
  Ok (compose (output m)).

(* ================================================================= *)
(** ** The meaning of the emitted VHDL

    The bounds of a port are VHDL expression texts and the body of [every] is
    VHDL statement text.  To speak of domain sizes and of what a fragment does
    when it runs, this section evaluates the integer expressions built from
    decimal literals, parentheses, [+], [-] and [**], and runs the three
    statement forms the generator emits inside a process. *)

Module Vhdl.

Inductive token : Type :=
| TNum (n : Z)
| TPlus
| TMinus
| TPow
| TLParen
| TRParen.

Definition flush (acc : option Z) (ts : list token) : list token :=
  match acc with
  | Some n => TNum n :: ts
  | None => ts
  end.

Definition digit (acc : option Z) (c : ascii) : option Z :=
  let d := Z.of_N (N_of_ascii c - 48) in
  match acc with
  | Some n => Some (10 * n + d)%Z
  | None => Some d
  end.

(** [acc] is the literal being read. *)
Fixpoint lex (acc : option Z) (s : string) : option (list token) :=
  match s with
  | EmptyString => Some (flush acc [])
  | String c r =>
      if JS.is_digit c then lex (digit acc c) r
      else if JS.is_space c then option_map (flush acc) (lex None r)
      else if Ascii.eqb c "("%char then option_map (fun ts => flush acc (TLParen :: ts)) (lex None r)
      else if Ascii.eqb c ")"%char then option_map (fun ts => flush acc (TRParen :: ts)) (lex None r)
      else if Ascii.eqb c "+"%char then option_map (fun ts => flush acc (TPlus :: ts)) (lex None r)
      else if Ascii.eqb c "-"%char then option_map (fun ts => flush acc (TMinus :: ts)) (lex None r)
      else if Ascii.eqb c "*"%char then
        match r with
        | String c' r' =>
            if Ascii.eqb c' "*"%char
            then option_map (fun ts => flush acc (TPow :: ts)) (lex None r')
            else None
        | EmptyString => None
        end
      else None
  end.

(** Recursive descent: [expr] is factors joined by [+] and [-] from the left,
    a factor is a primary with an optional non-negative exponent. *)
Fixpoint expr (fuel : nat) (ts : list token) : option (Z * list token) :=
  match fuel with
  | O => None
  | S f =>
      match factor f ts with
      | Some (v, ts') => rest f v ts'
      | None => None
      end
  end
with rest (fuel : nat) (acc : Z) (ts : list token) : option (Z * list token) :=
  match fuel with
  | O => None
  | S f =>
      match ts with
      | TPlus :: ts' =>
          match factor f ts' with
          | Some (v, ts'') => rest f (acc + v)%Z ts''
          | None => None
          end
      | TMinus :: ts' =>
          match factor f ts' with
          | Some (v, ts'') => rest f (acc - v)%Z ts''
          | None => None
          end
      | _ => Some (acc, ts)
      end
  end
with factor (fuel : nat) (ts : list token) : option (Z * list token) :=
  match fuel with
  | O => None
  | S f =>
      match primary f ts with
      | Some (b, TPow :: ts') =>
          match primary f ts' with
          | Some (e, ts'') => if (0 <=? e)%Z then Some ((b ^ e)%Z, ts'') else None
          | None => None
          end
      | r => r
      end
  end
with primary (fuel : nat) (ts : list token) : option (Z * list token) :=
  match fuel with
  | O => None
  | S f =>
      match ts with
      | TNum n :: ts' => Some (n, ts')
      | TLParen :: ts' =>
          match expr f ts' with
          | Some (v, TRParen :: ts'') => Some (v, ts'')
          | _ => None
          end
      | _ => None
      end
  end.

(** The value of an expression text, when it is one of the forms above. *)
Definition eval (s : string) : option Z :=
  match lex None s with
  | Some ts =>
      match expr (4 * List.length ts + 4) ts with
      | Some (v, []) => Some v
      | _ => None
      end
  | None => None
  end.

(** The number of values of the range [lo to hi]. *)
Definition range_size (lo hi : Z) : nat := Z.to_nat (hi - lo + 1).

(** The values of the range [lo to hi], ascending. *)
Definition range_values (lo hi : Z) : list Z :=
  map (fun i => (lo + Z.of_nat i)%Z) (seq 0 (range_size lo hi)).

(** The sequential statements the generator emits for [every]. *)
#[warnings="-register-all"]
Inductive stmt : Type :=
| For (v lo hi : string) (body : list stmt)
| Assign (target value : string)
| Wait (duration : string).

Fixpoint render (s : stmt) : string :=
  match s with
  | For v lo hi body =>
      "for " ++ v ++ " in " ++ lo ++ " to " ++ hi ++ " loop" ++ JS.nl
      ++ (fix render_all (l : list stmt) : string :=
            match l with
            | [] => ""
            | x :: r => render x ++ render_all r
            end) body
      ++ "end loop;" ++ JS.nl
  | Assign t e => t ++ " <= " ++ e ++ ";" ++ JS.nl
  | Wait d => "wait for " ++ d ++ ";" ++ JS.nl
  end.

(** What a process does: it drives a signal with the value of an expression
    under the current loop parameters, or it suspends for a duration. *)
Inductive event : Type :=
| Drive (target value : string) (env : list (string * Z))
| Suspend (duration : string).

Definition seq_events (a b : option (list event)) : option (list event) :=
  match a, b with
  | Some x, Some y => Some (x ++ y)%list
  | _, _ => None
  end.

(** The events of one statement; [None] when a loop bound has no value. *)
Fixpoint exec (env : list (string * Z)) (s : stmt) : option (list event) :=
  match s with
  | For v lo hi body =>
      match eval lo, eval hi with
      | Some l, Some h =>
          fold_right
            (fun j acc =>
               seq_events
                 ((fix exec_all (ss : list stmt) : option (list event) :=
                     match ss with
                     | [] => Some []
                     | x :: r => seq_events (exec ((v, j) :: env) x) (exec_all r)
                     end) body)
                 acc)
            (Some []) (range_values l h)
      | _, _ => None
      end
  | Assign t e => Some [Drive t e env]
  | Wait d => Some [Suspend d]
  end.



(** *** Reading statement text

    The text of a process body is read statement by statement: a semicolon
    ends a statement and a line feed ends a line, so a text is first cut at
    both.  A piece is then the header of a loop, the end of a loop, a wait or
    a signal assignment. *)

Definition is_break (c : ascii) : bool :=
  Ascii.eqb c ";"%char || Ascii.eqb c JS.LF.

Fixpoint pieces (s : string) : list string :=
  match s with
  | EmptyString => [EmptyString]
  | String c r =>
      if is_break c then EmptyString :: pieces r
      else match pieces r with
           | [] => [String c EmptyString]
           | h :: t => String c h :: t
           end
  end.

(** [s] before and after the first occurrence of [sep]. *)
Fixpoint cut (sep s : string) : option (string * string) :=
  match JS.strip_prefix sep s with
  | Some r => Some (EmptyString, r)
  | None =>
      match s with
      | EmptyString => None
      | String c r =>
          match cut sep r with
          | Some (a, b) => Some (String c a, b)
          | None => None
          end
      end
  end.

Inductive item : Type :=
| Open (v lo hi : string)
| Close
| Simple (s : stmt).

(** What a piece says: [Some None] for a blank piece, [None] for a piece
    that is none of the four forms. *)
Definition item_of (piece : string) : option (option item) :=
  let t := JS.trimStart piece in
  if JS.is_empty t then Some None
  else
    match JS.strip_prefix "for " t with
    | Some r =>
        match JS.strip_suffix " loop" r with
        | Some h =>
            match cut " in " h with
            | Some (v, range) =>
                match cut " to " range with
                | Some (lo, hi) => Some (Some (Open v lo hi))
                | None => None
                end
            | None => None
            end
        | None => None
        end
    | None =>
        if String.eqb t "end loop" then Some (Some Close)
        else
          match JS.strip_prefix "wait for " t with
          | Some d => Some (Some (Simple (Wait d)))
          | None =>
              match cut " <= " t with
              | Some (x, e) => Some (Some (Simple (Assign x e)))
              | None => None
              end
          end
    end.

Fixpoint items_of (ps : list string) : option (list item) :=
  match ps with
  | [] => Some []
  | p :: r =>
      match item_of p, items_of r with
      | Some (Some i), Some l => Some (i :: l)
      | Some None, Some l => Some l
      | _, _ => None
      end
  end.

(** The statements the items spell.  [block] holds the statements of the
    block being read, latest first, and [outer] the loops that are open, each
    with its header and the statements read before it in its own block. *)
Fixpoint build (items : list item) (block : list stmt)
    (outer : list (string * string * string * list stmt)) : option (list stmt) :=
  match items with
  | [] =>
      match outer with
      | [] => Some (rev block)
      | _ :: _ => None
      end
  | Open v lo hi :: r => build r [] ((v, lo, hi, block) :: outer)
  | Close :: r =>
      match outer with
      | (v, lo, hi, before) :: outer' => build r (For v lo hi (rev block) :: before) outer'
      | [] => None
      end
  | Simple s :: r => build r (s :: block) outer
  end.

Definition parse (text : string) : option (list stmt) :=
  match items_of (pieces text) with
  | Some items => build items [] []
  | None => None
  end.

(** The events of a sequence of statements. *)
Definition exec_all (env : list (string * Z)) (ss : list stmt) : option (list event) :=
  fold_right (fun s acc => seq_events (exec env s) acc) (Some []) ss.

(** What the process does when it runs the statements of [text]. *)
Definition run (text : string) : option (list event) :=
  match parse text with
  | Some ss => exec_all [] ss
  | None => None
  end.


End Vhdl.

(** The nested loops over the signals [sigs], numbered from [i]: each loop
    drives its signal and contains the next; the innermost holds the wait. *)
Fixpoint nest (i : nat) (sigs : list (string * pin)) (sync : string) : Vhdl.stmt :=
  match sigs with
  | [] => Vhdl.Wait sync
  | (name, p) :: r =>
      let v := "i_" ++ JS.of_nat i in
      Vhdl.For v (low (pin_bounds p)) (high (pin_bounds p))
        [Vhdl.Assign name (converter (pin_bounds p) v); nest (S i) r sync]
  end.

(** The number of values between a port's bounds. *)
Definition domain_size (b : bounds) : option nat :=
  match Vhdl.eval (low b), Vhdl.eval (high b) with
  | Some l, Some h => Some (Vhdl.range_size l h)
  | _, _ => None
  end.

(* ================================================================= *)
(** ** The half adder of the README *)

Definition std_logic_ports (ports : list string) (mode : string) : interface_declaration :=
  {| int_ports := ports;
     int_indication := "simple_mode_indication";
     int_indication_children := 2;
     int_mode := mode;
     int_type := "std_logic";
     int_range := None |}.

Definition ha : entity_declaration :=
  {| ent_name := Some "ha";
     ent_clauses := ["library ieee;"; "use ieee.std_logic_1164.all;"];
     ent_head :=
       Some {| head_text := "is port (a, b : in std_logic; s, co : out std_logic);";
               head_interfaces := [std_logic_ports ["a"; "b"] "in";
                                   std_logic_ports ["s"; "co"] "out"] |} |}.

Definition ha_tables : tables :=
  match first_pass [ha] with
  | Ok r => fst r
  | Err _ => no_tables
  end.

(** The port names an entity head declares, group after group, as the
    first pass keys them. *)
Definition declared_ports (h : entity_head) : list string :=
  flat_map (fun int => map JS.trim (int_ports int)) (head_interfaces h).

(** The names of [l] not in [seen], each at its first occurrence. *)
Fixpoint first_seen (seen l : list string) : list string :=
  match l with
  | [] => []
  | x :: r =>
      if existsb (fun y => String.eqb y x) seen then first_seen seen r
      else x :: first_seen (seen ++ [x]) r
  end.

(** [s], read after [run] line feeds, has no run of three or more. *)
Fixpoint short_runs (run : nat) (s : string) : bool :=
  match s with
  | EmptyString => true
  | String c r =>
      if Ascii.eqb c JS.LF then Nat.ltb run 2 && short_runs (S run) r
      else short_runs 0 r
  end.

(** [n] line feeds. *)
Fixpoint line_feeds (n : nat) : string :=
  match n with
  | O => EmptyString
  | S k => String JS.LF (line_feeds k)
  end.

(** The entries of [names] when every name has its pin. *)
Definition known (sigs : list (string * pin)) : list (string * option pin) :=
  map (fun s => (fst s, Some (snd s))) sigs.

(** The run did not end on a failed [assert]. *)
Definition no_assertion {A} (r : result A) : Prop := r <> Err AssertionError.


(** The comments of the README example. *)
Definition readme_comments : list (option string) :=
  [Some " testbench tb of ha is"; Some " begin"; Some " every (a, b);"; Some " end;"].

(** The entity [e] has no entry in the tables. *)
Definition absent (T : tables) (e : string) : Prop :=
  JS.get (entityClauses T) e = None
  /\ JS.get (entityPins T) e = None
  /\ JS.get (entityHeads T) e = None.

(* ================================================================= *)
(** ** The output path *)

(** [s.replaceAll(a, b)] for one-character [a] and [b]. *)
Fixpoint replaceAll (a b : ascii) (s : string) : string :=
  match s with
  | EmptyString => EmptyString
  | String c r => String (if Ascii.eqb c a then b else c) (replaceAll a b r)
  end.

(** The constant [outputPath]; [argv3] is [process.argv[3]], and [dirname],
    [basename] and [join] are the functions of Node's [path] module. *)
Definition outputPath (dirname : string -> string)
    (basename : string -> string -> string) (join : string -> string -> string)
    (inputPath : string) (argv3 : option string) : string :=
  JS.or_else argv3
    (join (dirname inputPath)
          (replaceAll "."%char "_"%char (basename inputPath ".vhdl") ++ "_tb.vhdl")).

(* ================================================================= *)
(** ** Notions used to state further properties *)

(** The characters of [s] that are no white space, in order. *)
Fixpoint solid (s : string) : string :=
  match s with
  | EmptyString => EmptyString
  | String c r => if JS.is_space c then solid r else String c (solid r)
  end.

(** The keywords of the directives. *)
Definition keywords : list string :=
  ["testbench"; "sync"; "begin"; "every"; "set"; "end"; "end;"].

(** The signal names an [every] directive with text [text] ranges over, in
    a block whose entity has the port table [p]. *)
Definition every_signals (text : string) (p : JS.obj pin) : list string :=
  match every_source text (Some p) with
  | Ok src => map JS.trim (filter JS.truthy (JS.split "," src))
  | Err _ => []
  end.

(** [b] is [a] with something appended. *)
Definition extends (a b : string) : Prop := exists s, b = a ++ s.

(** [s] holds no character [c]. *)
Definition without (c : ascii) (s : string) : bool :=
  JS.all (fun x => negb (Ascii.eqb x c)) s.

(** A port name as the first pass stores them when it comes from an
    identifier: not empty, without comma, trimmed, and no array index. *)
Definition plain_name (k : string) : bool :=
  JS.truthy k && without ","%char k && String.eqb (JS.trim k) k
  && match JS.array_index k with Some _ => false | None => true end.

(** The exception a port group makes the first pass throw, read off the
    group alone: a third child without children has no [mode] to describe in
    the message; a third child that is no simple mode indication fails the
    assertion; a simple one with a single child has no [type]. *)
Definition interface_error (int : interface_declaration) : option error :=
  match int_indication_children int with
  | 0 => Some TypeError
  | 1 => if String.eqb (int_indication int) "simple_mode_indication"
         then Some TypeError else Some AssertionError
  | _ => if String.eqb (int_indication int) "simple_mode_indication"
         then None else Some AssertionError
  end.



(** The types [getTypeBounds] gives bounds to. *)
Definition enumerable (type : string) (range : option simple_range) : bool :=
  scalar_type (match_word type)
  || (vector_type (match_word type)
      && match range with Some _ => true | None => false end).

(** The pin the first pass stores for the ports of a group. *)
Definition group_pin (int : interface_declaration) : pin :=
  {| pin_mode := int_mode int;
     pin_type := int_type int;
     pin_bounds := fst (getTypeBounds (int_type int) (int_range int)) |}.




(** The port table of [e], empty when the tables have none. *)
Definition pins_of (T : tables) (e : string) : JS.obj pin :=
  match JS.get (entityPins T) e with
  | Some o => o
  | None => []
  end.





(** The width the source computes for a range with the bounds [a] and [b]
    written in decimal: right minus left plus one when the keyword is [to],
    left minus right plus one for any other keyword text. *)
Definition width_value (kind : string) (a b : nat) : Z :=
  if String.eqb kind "to" then (Z.of_nat b - Z.of_nat a + 1)%Z
  else (Z.of_nat a - Z.of_nat b + 1)%Z.

(** What holds of every generation state a run builds: the sync duration is
    not empty, and the testbench name is the entity, as interpolated, followed
    by [_tb] and possibly more. *)
Definition state_ok (st : tb_state) : Prop :=
  JS.truthy (sync st) = true
  /\ exists suffix, testbench st = JS.show (entity st) ++ "_tb" ++ suffix.

Definition machine_ok (m : machine) : Prop :=
  match state m with
  | Some st => state_ok st
  | None => True
  end.

(* ================================================================= *)
(** * Properties *)

(** ** Strings *)

Lemma append_nil_r (s : string) : s ++ "" = s.
Proof. induction s as [|c s IH]; simpl; [reflexivity | now rewrite IH]. Qed.

Lemma append_assoc (a b c : string) : (a ++ b) ++ c = a ++ b ++ c.
Proof. induction a as [|x a IH]; simpl; [reflexivity | now rewrite IH]. Qed.

Lemma length_append (a b : string) :
  String.length (a ++ b) = String.length a + String.length b.
Proof. induction a as [|x a IH]; simpl; [reflexivity | now rewrite IH]. Qed.

Lemma prefix_append (p s : string) :
  String.prefix p s = true -> exists r, s = p ++ r.
Proof.
  revert s; induction p as [|a p IH]; intros s H.
  - exists s; reflexivity.
  - destruct s as [|b s]; simpl in H; [discriminate|].
    destruct (ascii_dec a b) as [->|]; [|discriminate].
    destruct (IH _ H) as [r ->]. exists r; reflexivity.
Qed.

Lemma strip_suffix_append (p x : string) :
  p <> "" -> JS.strip_suffix p (x ++ p) = Some x.
Proof.
  intros Hp. induction x as [|c x IH].
  - simpl. destruct p; [congruence|]. simpl.
    now rewrite Ascii.eqb_refl, String.eqb_refl.
  - cbn [append JS.strip_suffix].
    destruct (String.eqb (String c (x ++ p)) p) eqn:E.
    + apply String.eqb_eq in E. apply (f_equal String.length) in E.
      simpl in E. rewrite length_append in E. lia.
    + now rewrite IH.
Qed.

(** A directive that starts with [testbench ] has the keyword [testbench]. *)
Lemma startsWith_testbench_keyword (text : string) :
  JS.startsWith text "testbench " = true -> keyword text = Some "testbench".
Proof.
  intros H. apply prefix_append in H. destruct H as [r ->]. reflexivity.
Qed.

(** ** The type bound resolver *)

Lemma is_case_eq (d : option string) (l : string) :
  is_case d l = true -> d = Some l.
Proof.
  destruct d as [n|]; simpl; [|discriminate].
  intros H. apply String.eqb_eq in H. now subst.
Qed.

Lemma vector_not_scalar (name : option string) :
  vector_type name = true -> scalar_type name = false.
Proof.
  unfold vector_type. intros H. apply orb_true_iff in H.
  destruct H as [H|H]; apply is_case_eq in H; subst; reflexivity.
Qed.

(** C7. The resolver is a total function that never throws; whenever the type
    name is not one of the five recognised names, or it is a vector type given
    without a range, it sends exactly one warning and returns the empty
    bounds: [low] and [high] are the empty string and the converter returns
    the empty string for every argument. *)
Theorem getTypeBounds_degrades (type : string) (range : option simple_range) :
  (exists b w, getTypeBounds type range = (b, w)) /\
  ((scalar_type (match_word type) = false /\ vector_type (match_word type) = false)
   \/ (vector_type (match_word type) = true /\ range = None) ->
   exists w, getTypeBounds type range = (no_bounds, [Warn w])
             /\ low (fst (getTypeBounds type range)) = ""
             /\ high (fst (getTypeBounds type range)) = ""
             /\ forall i, converter (fst (getTypeBounds type range)) i = "").
Proof.
  split.
  - destruct (getTypeBounds type range) as [b w]. now exists b, w.
  - unfold getTypeBounds. intros [[Hs Hv] | [Hv Hr]].
    + rewrite Hs, Hv. eexists; repeat split.
    + rewrite (vector_not_scalar _ Hv), Hv. subst range. eexists; repeat split.
Qed.

Lemma getTypeBounds_degrades_witness :
  exists w, getTypeBounds "integer" None = (no_bounds, [Warn w])
            /\ low (fst (getTypeBounds "integer" None)) = ""
            /\ high (fst (getTypeBounds "integer" None)) = ""
            /\ forall i, converter (fst (getTypeBounds "integer" None)) i = "".
Proof.
  apply (proj2 (getTypeBounds_degrades "integer" None)).
  left. split; reflexivity.
Defined.

(** C6. The bounds depend on the type name and the bound texts only, not on
    the direction of the range: a one-bit scalar type has low 0 and high 1,
    hence two values; [std_logic_vector(7 downto 0)] has a width expression of
    value 8 and 256 values; and for all bound texts [a] and [b] (so for
    [N downto 0] and [0 to N]) the ranges [a downto b] and [b to a] give the
    same width expression and the same bounds, hence the same domain size. *)
Theorem getTypeBounds_direction :
  (forall type range,
      scalar_type (match_word type) = true ->
      low (fst (getTypeBounds type range)) = "0"
      /\ high (fst (getTypeBounds type range)) = "1"
      /\ domain_size (fst (getTypeBounds type range)) = Some 2)
  /\ (Vhdl.eval (length_expr (downto "7" "0")) = Some 8%Z
      /\ domain_size (fst (getTypeBounds "std_logic_vector(7 downto 0)"
                             (Some (downto "7" "0")))) = Some 256
      /\ Vhdl.eval (length_expr (upto "0" "7")) = Some 8%Z
      /\ domain_size (fst (getTypeBounds "std_logic_vector(0 to 7)"
                             (Some (upto "0" "7")))) = Some 256)
  /\ (forall t1 t2 a b,
         match_word t1 = match_word t2 ->
         vector_type (match_word t1) = true ->
         length_expr (downto a b) = length_expr (upto b a)
         /\ fst (getTypeBounds t1 (Some (downto a b)))
            = fst (getTypeBounds t2 (Some (upto b a)))
         /\ domain_size (fst (getTypeBounds t1 (Some (downto a b))))
            = domain_size (fst (getTypeBounds t2 (Some (upto b a))))).
Proof.
  split; [|split].
  - intros type range H. unfold getTypeBounds. rewrite H. repeat split.
  - repeat split; vm_compute; reflexivity.
  - intros t1 t2 a b Hn Hv.
    assert (E : fst (getTypeBounds t1 (Some (downto a b)))
                = fst (getTypeBounds t2 (Some (upto b a)))).
    { unfold getTypeBounds. rewrite <- Hn, (vector_not_scalar _ Hv), Hv.
      reflexivity. }
    split; [reflexivity | split; [exact E | now rewrite E]].
Qed.

Lemma getTypeBounds_direction_witness :
  (low (fst (getTypeBounds "bit" None)) = "0"
   /\ high (fst (getTypeBounds "bit" None)) = "1"
   /\ domain_size (fst (getTypeBounds "bit" None)) = Some 2)
  /\ (length_expr (downto "3" "0") = length_expr (upto "0" "3")
      /\ fst (getTypeBounds "std_logic_vector(3 downto 0)" (Some (downto "3" "0")))
         = fst (getTypeBounds "std_logic_vector(0 to 3)" (Some (upto "0" "3")))
      /\ domain_size (fst (getTypeBounds "std_logic_vector(3 downto 0)"
                             (Some (downto "3" "0"))))
         = domain_size (fst (getTypeBounds "std_logic_vector(0 to 3)"
                               (Some (upto "0" "3"))))).
Proof.
  split.
  - apply (proj1 getTypeBounds_direction "bit" None). reflexivity.
  - apply (proj2 (proj2 getTypeBounds_direction)); reflexivity.
Defined.

(** ** The directive interpreter *)

Lemma strip_prefix_append (p s r : string) :
  JS.strip_prefix p s = Some r -> s = p ++ r.
Proof.
  revert s; induction p as [|a p IH]; intros s H; simpl in H.
  - now inversion H.
  - destruct s as [|b s]; [discriminate|].
    destruct (Ascii.eqb a b) eqn:E; [|discriminate].
    apply Ascii.eqb_eq in E. subst b. simpl. f_equal. now apply IH.
Qed.

Lemma second_pass_from_app (T : tables) (xs ys : list (option string)) (m : machine) :
  second_pass_from T (xs ++ ys) m
  = bind (second_pass_from T xs m) (second_pass_from T ys).
Proof.
  revert m; induction xs as [|x xs IH]; intros m; simpl; [reflexivity|].
  destruct (directive T m x) as [m'|e]; simpl; [apply IH | reflexivity].
Qed.

(** A directive whose keyword is [testbench], when it is not skipped, starts
    a block from the default settings. *)
Lemma directive_testbench (T : tables) (m : machine) (raw : string) :
  keyword (JS.trim raw) = Some "testbench" ->
  active m = true \/ JS.startsWith (JS.trim raw) "testbench " = true ->
  directive T m (Some raw) = on_testbench T m (JS.trim raw).
Proof.
  intros Hk Hg. unfold directive. cbn [option_map assert_ok bind].
  assert (G : negb (active m) && negb (JS.startsWith (JS.trim raw) "testbench ") = false).
  { destruct Hg as [-> | ->]; [reflexivity | apply andb_false_r]. }
  rewrite G, Hk. reflexivity.
Qed.

(** C5. Whatever directives were processed before it (a whole earlier block
    with its own [sync] settings included), a [testbench] directive leaves a
    state whose [sync] is ["1 ns"] and whose [clock] is empty, with the entity
    taken from the directive: nothing of the earlier state is kept. *)
Theorem testbench_resets_state (T : tables) (nodes : list (option string))
    (m1 : machine) (raw : string) :
  second_pass T nodes = Ok m1 ->
  keyword (JS.trim raw) = Some "testbench" ->
  active m1 = true \/ JS.startsWith (JS.trim raw) "testbench " = true ->
  exists m2 st,
    second_pass T (nodes ++ [Some raw]) = Ok m2
    /\ state m2 = Some st
    /\ sync st = "1 ns"
    /\ clock st = ""
    /\ entity st = nth_error (filter JS.truthy (JS.split " " (JS.trim raw))) 3.
Proof.
  intros Hrun Hk Hg. unfold second_pass in *.
  rewrite second_pass_from_app, Hrun. cbn [bind second_pass_from].
  rewrite (directive_testbench T m1 raw Hk Hg). unfold on_testbench.
  cbn [bind]. eexists _, _. repeat split.
Qed.

Lemma testbench_resets_state_witness :
  exists m2 st,
    second_pass ha_tables
      ([Some " testbench tb of ha is"; Some " sync (a) every 5 ns;";
        Some " begin"; Some " end;"] ++ [Some " testbench two of ha is"]) = Ok m2
    /\ state m2 = Some st
    /\ sync st = "1 ns"
    /\ clock st = ""
    /\ entity st = nth_error (filter JS.truthy
                                (JS.split " " (JS.trim " testbench two of ha is"))) 3.
Proof.
  eapply (testbench_resets_state ha_tables _ _ " testbench two of ha is").
  - vm_compute. reflexivity.
  - reflexivity.
  - right. reflexivity.
Defined.

(** C3, as the claim states it, fails: after [sync (a) every 5 ns;] has named
    the clock [a], the directive [sync every 2 ns;] empties [clock]. *)
Lemma sync_every_clears_clock :
  exists m1 m2 st1 st2,
    second_pass ha_tables [Some " testbench tb of ha is"; Some " sync (a) every 5 ns;"]
    = Ok m1
    /\ directive ha_tables m1 (Some " sync every 2 ns;") = Ok m2
    /\ state m1 = Some st1 /\ state m2 = Some st2
    /\ clock st1 = "a" /\ clock st2 = "" /\ clock st2 <> clock st1.
Proof.
  eexists _, _, _, _.
  split; [vm_compute; reflexivity|].
  split; [vm_compute; reflexivity|].
  repeat split. discriminate.
Qed.

(** C3, amended. Inside an active block, [sync every <dur>;] sets [sync] to
    [<dur>] and sets [clock] to the empty string; [entity], [testbench], the
    output and the console are left unchanged. *)
Theorem sync_every_sets_sync_and_clears_clock (T : tables) (m : machine)
    (st : tb_state) (raw dur : string) :
  state m = Some st ->
  JS.trim raw = "sync every " ++ dur ++ ";" ->
  JS.truthy dur = true ->
  JS.all not_line_terminator dur = true ->
  directive T m (Some raw)
  = Ok {| output := output m;
          state := Some {| entity := entity st;
                           testbench := testbench st;
                           sync := dur;
                           clock := "" |};
          console := console m |}.
Proof.
  intros Hst Htext Hdur Hline. unfold directive.
  cbn [option_map assert_ok bind]. rewrite Htext.
  unfold active. rewrite Hst. cbn [negb andb].
  change (keyword ("sync every " ++ dur ++ ";")) with (Some "sync").
  cbn [is_case String.eqb Ascii.eqb Bool.eqb]. unfold on_sync.
  rewrite Hst. cbn [assert_ok bind].
  assert (E : re_sync_every ("sync every " ++ dur ++ ";") = Some dur).
  { unfold re_sync_every. cbn.
    rewrite (strip_suffix_append ";" dur) by discriminate.
    now rewrite Hdur, Hline. }
  rewrite E. unfold JS.or_else at 1. rewrite Hdur. reflexivity.
Qed.

Lemma sync_every_sets_sync_and_clears_clock_witness :
  directive ha_tables
    {| output := "";
       state := Some {| entity := Some "ha"; testbench := "ha_tb";
                        sync := "5 ns"; clock := "a" |};
       console := [] |}
    (Some " sync every 2 ns;")
  = Ok {| output := "";
          state := Some {| entity := Some "ha"; testbench := "ha_tb";
                           sync := "2 ns"; clock := "" |};
          console := [] |}.
Proof.
  apply (sync_every_sets_sync_and_clears_clock ha_tables
           {| output := "";
              state := Some {| entity := Some "ha"; testbench := "ha_tb";
                               sync := "5 ns"; clock := "a" |};
              console := [] |}
           {| entity := Some "ha"; testbench := "ha_tb"; sync := "5 ns"; clock := "a" |}
           " sync every 2 ns;" "2 ns");
    reflexivity.
Defined.

(** Reads of a table. *)

Lemma read_own {V} (o : JS.obj V) (k : string) (v : V) :
  JS.get o k = Some v -> JS.read o k = JS.Own v.
Proof. unfold JS.read. now intros ->. Qed.

Lemma read_undefined {V} (o : JS.obj V) (k : string) :
  JS.get o k = None -> JS.inherited k = None -> JS.read o k = JS.Undefined.
Proof. unfold JS.read. now intros -> ->. Qed.

Lemma properties_own {V} (o : JS.obj (JS.obj V)) (k : string) (v : JS.obj V) :
  JS.get o k = Some v -> JS.properties (JS.read o k) = Some v.
Proof. intros H. now rewrite (read_own _ _ _ H). Qed.

Lemma properties_undefined {V} (o : JS.obj (JS.obj V)) (k : string) :
  JS.get o k = None -> JS.inherited k = None -> JS.properties (JS.read o k) = None.
Proof. intros H I. now rewrite (read_undefined _ _ H I). Qed.

(** Unfolds [directive] on an active machine whose keyword is known. *)
Ltac dispatch Hst Hk :=
  unfold directive, active; cbn [option_map assert_ok bind];
  rewrite Hst, Hk; cbn [negb andb is_case String.eqb Ascii.eqb Bool.eqb].

Lemma directive_idle (T : tables) (m : machine) (raw : string) :
  state m = None ->
  keyword (JS.trim raw) <> Some "testbench" ->
  directive T m (Some raw) = Ok m.
Proof.
  intros Hst Hk. unfold directive, active. rewrite Hst.
  cbn [option_map assert_ok bind negb andb].
  destruct (JS.startsWith (JS.trim raw) "testbench ") eqn:E; [|reflexivity].
  now apply startsWith_testbench_keyword in E.
Qed.

(** C1, as the claim states it, fails: the run over the single directive
    [every (a);], met while no block is open, ends normally. *)
Lemma every_before_testbench_does_not_abort :
  second_pass no_tables [Some " every (a);"] = Ok start
  /\ ~ exists e, second_pass no_tables [Some " every (a);"] = Err e.
Proof.
  split; [reflexivity|]. intros [e H]. discriminate H.
Qed.

(** C1, amended. While no generation state is active, a [begin], [every],
    [set] or [end] directive is skipped: the run goes on, and the state, the
    output and the console are unchanged. *)
Theorem body_directive_outside_block_is_skipped (T : tables) (m : machine)
    (raw k : string) :
  state m = None ->
  keyword (JS.trim raw) = Some k ->
  In k ["begin"; "every"; "set"; "end"; "end;"] ->
  directive T m (Some raw) = Ok m.
Proof.
  intros Hst Hk Hin. apply directive_idle; [exact Hst|].
  rewrite Hk. intros E. inversion E; subst k.
  simpl in Hin. intuition discriminate.
Qed.

Lemma body_directive_outside_block_is_skipped_witness :
  directive ha_tables start (Some " every (a);") = Ok start.
Proof.
  apply (body_directive_outside_block_is_skipped ha_tables start " every (a);" "every").
  - reflexivity.
  - reflexivity.
  - simpl. tauto.
Defined.

(** The assertions of the second pass never fail on a comment that has a
    child: a body directive is either skipped or finds an active state. *)

Lemma bind_no_assertion {A B} (r : result A) (f : A -> result B) :
  no_assertion r -> (forall a, r = Ok a -> no_assertion (f a)) -> no_assertion (bind r f).
Proof.
  unfold no_assertion. destruct r as [a|e]; cbn [bind]; intros Hr Hf.
  - now apply Hf.
  - intros E. apply Hr. congruence.
Qed.

Lemma deref_no_assertion {A} (v : option A) : no_assertion (deref v).
Proof. destruct v; discriminate. Qed.

Lemma mapM_no_assertion {A B} (f : A -> result B) (l : list A) :
  (forall a, no_assertion (f a)) -> no_assertion (mapM f l).
Proof.
  intros Hf. induction l as [|a l IH]; cbn [mapM]; [discriminate|].
  apply bind_no_assertion; [apply Hf|]. intros b _.
  apply bind_no_assertion; [exact IH|]. discriminate.
Qed.

Lemma loop_heads_no_assertion (names : list (string * option pin)) (i : nat) :
  no_assertion (loop_heads i names).
Proof.
  revert i; induction names as [|[n info] names IH]; intros i; cbn [loop_heads];
    [discriminate|].
  apply bind_no_assertion; [apply deref_no_assertion|]. intros p _.
  apply bind_no_assertion; [apply IH|]. discriminate.
Qed.

Lemma every_names_no_assertion (text : string) (pins : option (JS.obj pin)) :
  no_assertion (every_names text pins).
Proof.
  unfold every_names. apply bind_no_assertion.
  - unfold every_source.
    destruct (re_every_list text) as [l|]; [destruct (JS.truthy l); [discriminate|]|];
      (apply bind_no_assertion; [apply deref_no_assertion | discriminate]).
  - intros src _. apply mapM_no_assertion. intros name. unfold with_pin.
    apply bind_no_assertion; [apply deref_no_assertion | discriminate].
Qed.

Lemma directive_no_assertion (T : tables) (m : machine) (raw : string) :
  no_assertion (directive T m (Some raw)).
Proof.
  unfold directive, active. cbn [option_map assert_ok bind].
  destruct (state m) as [st|] eqn:Hst.
  - cbn [negb andb].
    repeat match goal with
           | |- no_assertion (if ?b then _ else _) => destruct b
           end.
    + discriminate.
    + unfold on_sync. rewrite Hst. discriminate.
    + unfold on_begin. rewrite Hst. cbn [assert_ok bind].
      apply bind_no_assertion; [apply deref_no_assertion | discriminate].
    + unfold on_every. rewrite Hst. cbn [assert_ok bind].
      apply bind_no_assertion; [apply every_names_no_assertion|]. intros names _.
      apply bind_no_assertion; [apply loop_heads_no_assertion | discriminate].
    + unfold on_set. rewrite Hst. discriminate.
    + unfold on_end. rewrite Hst. discriminate.
    + discriminate.
  - cbn [negb andb].
    destruct (JS.startsWith (JS.trim raw) "testbench ") eqn:E; [|discriminate].
    cbn [negb]. rewrite (startsWith_testbench_keyword _ E). discriminate.
Qed.

Lemma second_pass_no_assertion (T : tables) (raws : list string) (m : machine) :
  no_assertion (second_pass_from T (map Some raws) m).
Proof.
  revert m; induction raws as [|raw raws IH]; intros m; cbn [map second_pass_from];
    [discriminate|].
  apply bind_no_assertion; [apply directive_no_assertion | intros m' _; apply IH].
Qed.
Lemma re_every_list_inv (text l : string) :
  re_every_list text = Some l ->
  JS.truthy l = true /\ keyword text = Some "every".
Proof.
  unfold re_every_list. destruct (JS.strip_prefix "every (" text) as [r|] eqn:P;
    [|discriminate].
  apply strip_prefix_append in P. subst text.
  destruct (JS.span not_rparen r) as [x rest].
  destruct (JS.truthy x) eqn:Hx; [|discriminate].
  destruct (String.eqb rest ");"); [|discriminate].
  intros E. inversion E; subst l. split; [exact Hx | reflexivity].
Qed.

Lemma mapM_with_pin (p : JS.obj pin) (names : list string) :
  mapM (with_pin (Some p)) names = Ok (map (fun n => (n, JS.get p n)) names).
Proof.
  induction names as [|n names IH]; simpl; [reflexivity|]. now rewrite IH.
Qed.

Lemma loop_heads_unknown (names : list (string * option pin)) (name : string) (i : nat) :
  In (name, None) names -> loop_heads i names = Err TypeError.
Proof.
  revert i; induction names as [|[n info] names IH]; intros i Hin; [destruct Hin|].
  destruct info as [p|]; [|reflexivity].
  destruct Hin as [E|Hin]; [discriminate E|].
  cbn [loop_heads deref bind]. now rewrite (IH _ Hin).
Qed.

(** C2, as the claim states it, fails: in the block of the half adder, whose
    ports are [a], [b], [s] and [co], the directive [every (a, x);] ends the
    run with a type error. *)
Lemma every_unknown_signal_aborts :
  second_pass ha_tables
    [Some " testbench tb of ha is"; Some " begin"; Some " every (a, x);"]
  = Err TypeError.
Proof. vm_compute. reflexivity. Qed.

(** C2, amended. An [every] directive whose explicit signal list contains a
    name that the active entity's port mapping does not have fails with an
    uncaught type error, raised by the call of the missing converter; the run
    ends there and the directive emits nothing. *)
Theorem every_unknown_signal_fails (T : tables) (m : machine) (st : tb_state)
    (p : JS.obj pin) (raw l name : string) :
  state m = Some st ->
  JS.get (entityPins T) (JS.show (entity st)) = Some p ->
  re_every_list (JS.trim raw) = Some l ->
  In name (map JS.trim (filter JS.truthy (JS.split "," l))) ->
  JS.get p name = None ->
  directive T m (Some raw) = Err TypeError.
Proof.
  intros Hst Hp Hre Hin Hget.
  destruct (re_every_list_inv _ _ Hre) as [Hl Hk].
  dispatch Hst Hk.
  unfold on_every. rewrite Hst. cbn [assert_ok bind]. rewrite (properties_own _ _ _ Hp).
  unfold every_names, every_source. rewrite Hre, Hl. cbn [bind].
  rewrite mapM_with_pin. cbn [bind].
  rewrite (loop_heads_unknown _ name); [reflexivity|].
  apply in_map_iff. exists name. now rewrite Hget.
Qed.

Lemma every_unknown_signal_fails_witness :
  directive ha_tables
    {| output := "";
       state := Some {| entity := Some "ha"; testbench := "ha_tb";
                        sync := "1 ns"; clock := "" |};
       console := [] |}
    (Some " every (a, x);")
  = Err TypeError.
Proof.
  eapply (every_unknown_signal_fails ha_tables _
            {| entity := Some "ha"; testbench := "ha_tb"; sync := "1 ns"; clock := "" |}
            _ " every (a, x);" "a, x" "x").
  - reflexivity.
  - reflexivity.
  - reflexivity.
  - simpl. tauto.
  - reflexivity.
Defined.

Lemma directive_sync (T : tables) (m : machine) (st : tb_state) (raw : string) :
  state m = Some st ->
  keyword (JS.trim raw) = Some "sync" ->
  exists m' st',
    directive T m (Some raw) = Ok m'
    /\ state m' = Some st' /\ entity st' = entity st /\ output m' = output m.
Proof.
  intros Hst Hk. dispatch Hst Hk.
  unfold on_sync. rewrite Hst. cbn [assert_ok bind].
  eexists _, _. repeat split.
Qed.

Lemma directive_begin_absent (T : tables) (m : machine) (st : tb_state) (raw : string) :
  state m = Some st ->
  JS.properties (JS.read (entityPins T) (JS.show (entity st))) = None ->
  keyword (JS.trim raw) = Some "begin" ->
  directive T m (Some raw) = Err TypeError.
Proof.
  intros Hst Hp Hk. dispatch Hst Hk.
  unfold on_begin. rewrite Hst. cbn [assert_ok bind]. now rewrite Hp.
Qed.

Lemma syncs_then_begin_absent (T : tables) (syncs : list string) (raw : string) :
  Forall (fun r => keyword (JS.trim r) = Some "sync") syncs ->
  keyword (JS.trim raw) = Some "begin" ->
  forall m st,
    state m = Some st ->
    JS.properties (JS.read (entityPins T) (JS.show (entity st))) = None ->
    second_pass_from T (map Some syncs ++ [Some raw]) m = Err TypeError.
Proof.
  intros Hs Hb. induction Hs as [|r syncs Hr _ IH]; intros m st Hst Hp.
  - cbn [map app second_pass_from]. now rewrite (directive_begin_absent T m st raw).
  - cbn [map app second_pass_from].
    destruct (directive_sync T m st r Hst Hr) as (m' & st' & -> & Hst' & He & _).
    cbn [bind]. apply (IH m' st' Hst'). now rewrite He.
Qed.

(** C10, as the claim states it, fails: [toString] is no entity of the
    tables of the half adder, yet the block opened for it does not start with
    the text [undefined], and its [begin] does not end the run: the reads find
    the method of that name that every table inherits, a function without
    enumerable properties. *)
Lemma testbench_of_inherited_name :
  absent ha_tables "toString"
  /\ exists m,
       second_pass ha_tables [Some " testbench tb of toString is"; Some " begin"] = Ok m
       /\ output m
          = "function toString() { [native code] }" ++ nl
            ++ "entity toString_tb is end;" ++ nl ++ nl
            ++ "architecture tb of toString_tb is" ++ nl
            ++ "component toString function toString() { [native code] }" ++ nl
            ++ "end component;" ++ nl ++ nl
            ++ "signal tb_done : bit := '0';" ++ nl
            ++ "begin" ++ nl
            ++ "dut : toString port map();" ++ nl ++ nl
            ++ "process" ++ nl ++ "begin" ++ nl.
Proof.
  split; [repeat split|]. eexists. split; reflexivity.
Qed.

(** C10, amended. A [testbench] directive that names an entity without an
    entry in the tables, under a name that is no member of [Object.prototype]
    either, is not rejected: it leaves an active state for that entity and
    appends the text [undefined] where the entity's clauses would go.  The
    [begin] directive that follows in that block, directly or after [sync]
    directives, then ends the run with a type error, raised when it reads the
    entries of the missing port table. *)
Theorem testbench_of_absent_entity (T : tables) (m : machine) (raw ent : string) :
  JS.startsWith (JS.trim raw) "testbench " = true ->
  nth_error (filter JS.truthy (JS.split " " (JS.trim raw))) 3 = Some ent ->
  absent T ent ->
  JS.inherited ent = None ->
  exists m1 st,
    directive T m (Some raw) = Ok m1
    /\ state m1 = Some st
    /\ entity st = Some ent
    /\ output m1 = output m ++ "undefined" ++ nl
                   ++ "entity " ++ testbench st ++ " is end;" ++ nl ++ nl
    /\ forall syncs rawb,
        Forall (fun r => keyword (JS.trim r) = Some "sync") syncs ->
        keyword (JS.trim rawb) = Some "begin" ->
        second_pass_from T (map Some syncs ++ [Some rawb]) m1 = Err TypeError.
Proof.
  intros Hp Hent (Hc & Hpins & _) Hi.
  rewrite (directive_testbench T m raw (startsWith_testbench_keyword _ Hp) (or_intror Hp)).
  unfold on_testbench. rewrite Hent.
  eexists _, _. split; [reflexivity|]. cbn [state output entity testbench JS.show].
  rewrite (read_undefined _ _ Hc Hi). cbn [JS.interpolate]. repeat split.
  intros syncs rawb Hs Hb.
  eapply (syncs_then_begin_absent T syncs rawb Hs Hb); [reflexivity|].
  cbn [entity JS.show]. now apply properties_undefined.
Qed.

Lemma testbench_of_absent_entity_witness :
  exists m1 st,
    directive ha_tables start (Some " testbench tb of fa is") = Ok m1
    /\ state m1 = Some st
    /\ entity st = Some "fa"
    /\ output m1 = output start ++ "undefined" ++ nl
                   ++ "entity " ++ testbench st ++ " is end;" ++ nl ++ nl
    /\ forall syncs rawb,
        Forall (fun r => keyword (JS.trim r) = Some "sync") syncs ->
        keyword (JS.trim rawb) = Some "begin" ->
        second_pass_from ha_tables (map Some syncs ++ [Some rawb]) m1 = Err TypeError.
Proof.
  apply (testbench_of_absent_entity ha_tables start " testbench tb of fa is" "fa").
  - reflexivity.
  - reflexivity.
  - repeat split.
  - reflexivity.
Defined.

(** ** The first pass and the order of the ports *)

Lemma get_set {V} (o : JS.obj V) (k k' : string) (v : V) :
  JS.get (JS.set o k v) k' = if String.eqb k k' then Some v else JS.get o k'.
Proof.
  induction o as [|[k0 v0] o IH]; simpl.
  - reflexivity.
  - destruct (String.eqb k0 k) eqn:E; simpl.
    + apply String.eqb_eq in E. subst k0. now destruct (String.eqb k k').
    + rewrite IH. destruct (String.eqb k0 k') eqn:E'; [|reflexivity].
      apply String.eqb_eq in E'. subst k'. now rewrite String.eqb_sym, E.
Qed.

Lemma keys_set {V} (o : JS.obj V) (k : string) (v : V) :
  map fst (JS.set o k v)
  = if existsb (fun y => String.eqb y k) (map fst o)
    then map fst o else (map fst o ++ [k])%list.
Proof.
  induction o as [|[k0 v0] o IH]; simpl; [reflexivity|].
  destruct (String.eqb k0 k); simpl; [reflexivity|].
  rewrite IH. now destruct (existsb _ (map fst o)).
Qed.

Lemma first_seen_app (seen a b : list string) :
  first_seen seen (a ++ b)
  = (first_seen seen a ++ first_seen (seen ++ first_seen seen a) b)%list.
Proof.
  revert seen; induction a as [|x a IH]; intros seen; simpl.
  - now rewrite app_nil_r.
  - destruct (existsb _ seen); [apply IH|].
    simpl. rewrite IH. now rewrite <- app_assoc.
Qed.

Lemma add_ports_keys (ports : list string) (p : pin) (o : JS.obj pin) :
  map fst (add_ports ports p o)
  = (map fst o ++ first_seen (map fst o) (map JS.trim ports))%list.
Proof.
  unfold add_ports. revert o; induction ports as [|x ports IH]; intros o; simpl.
  - now rewrite app_nil_r.
  - rewrite IH, keys_set.
    destruct (existsb _ (map fst o)); [reflexivity|].
    now rewrite <- app_assoc.
Qed.

(** What one port group does, by the exception it has. *)
Lemma add_interface_outcome (o : JS.obj pin) (c : list message)
    (int : interface_declaration) :
  add_interface (o, c) int
  = match interface_error int with
    | Some e => Err e
    | None =>
        Ok (add_ports (int_ports int) (group_pin int) o,
            (c ++ snd (getTypeBounds (int_type int) (int_range int)))%list)
    end.
Proof.
  unfold add_interface, interface_error, group_pin.
  destruct (int_indication_children int) as [|[|n]]; cbn [Nat.ltb Nat.leb];
    destruct (String.eqb (int_indication int) "simple_mode_indication");
    try reflexivity.
  now destruct (getTypeBounds (int_type int) (int_range int)).
Qed.

Lemma add_interfaces_keys (ints : list interface_declaration) :
  forall o c o' c',
    add_interfaces ints (o, c) = Ok (o', c') ->
    map fst o'
    = (map fst o
       ++ first_seen (map fst o)
            (flat_map (fun int => map JS.trim (int_ports int)) ints))%list.
Proof.
  induction ints as [|int ints IH]; intros o c o' c' H; cbn [add_interfaces] in H.
  - inversion H; subst. simpl. now rewrite app_nil_r.
  - rewrite add_interface_outcome in H.
    destruct (interface_error int); [discriminate|].
    cbn [bind] in H. apply IH in H. rewrite H, add_ports_keys.
    cbn [flat_map]. rewrite first_seen_app. now rewrite <- app_assoc.
Qed.

(** The table [entityPins[name] ||= {}] goes on from. *)
Lemma pins_or_empty (T : tables) (name : string) :
  match JS.properties (JS.read (entityPins T) name) with
  | Some o => o
  | None => []
  end = pins_of T name.
Proof.
  unfold JS.read, pins_of. destruct (JS.get (entityPins T) name); [reflexivity|].
  now destruct (JS.inherited name).
Qed.



Lemma entries_named {V} (o : JS.obj V) :
  Forall (fun k => JS.array_index k = None) (map fst o) -> JS.entries o = o.
Proof.
  intros H. unfold JS.entries, JS.named_entries.
  assert (I : JS.index_entries o = []).
  { induction o as [|[k v] o IH]; [reflexivity|].
    inversion H as [|? ? Hk Ho]; subst. cbn [JS.index_entries].
    simpl in Hk. rewrite Hk. now apply IH. }
  rewrite I. cbn [map app].
  induction o as [|[k v] o IH]; [reflexivity|].
  inversion H as [|? ? Hk Ho]; subst. simpl in Hk |- *. rewrite Hk.
  f_equal. apply IH; [exact Ho|].
  simpl in I. rewrite Hk in I. exact I.
Qed.




















(** A name that does not start with a digit, as every VHDL identifier, is
    no array index. *)
Lemma array_index_identifier (c : ascii) (r : string) :
  JS.is_digit c = false -> JS.array_index (String c r) = None.
Proof. intros H. unfold JS.array_index. cbn [JS.all]. now rewrite H. Qed.


(** ** The output composer *)

(** X5. The model of the replacement agrees with the regular expression: a
    maximal run of [n] line feeds becomes [min n 2] line feeds. *)
Lemma collapse_run (n : nat) (c : ascii) (s : string) :
  Ascii.eqb c JS.LF = false ->
  collapse 0 (line_feeds n ++ String c s)
  = line_feeds (Nat.min n 2) ++ String c (collapse 0 s).
Proof.
  intros Hc.
  assert (G : forall n k, 2 <= k ->
             collapse k (line_feeds n ++ String c s) = String c (collapse 0 s)).
  { clear n. induction n as [|n IH]; intros k Hk; cbn [line_feeds append collapse].
    - now rewrite Hc.
    - rewrite Ascii.eqb_refl.
      destruct (Nat.leb 2 k) eqn:E; [|apply Nat.leb_gt in E; lia].
      apply IH. lia. }
  destruct n as [|[|n]].
  - cbn [line_feeds append collapse Nat.min]. now rewrite Hc.
  - cbn [line_feeds append collapse Nat.min Nat.leb].
    rewrite Ascii.eqb_refl. now rewrite Hc.
  - replace (Nat.min (S (S n)) 2) with 2 by lia.
    cbn [line_feeds append collapse Nat.leb]. rewrite !Ascii.eqb_refl.
    do 2 f_equal. apply G. lia.
Qed.

Lemma short_runs_collapse (s : string) (k : nat) :
  short_runs k s = true -> collapse k s = s.
Proof.
  revert k; induction s as [|c s IH]; intros k H; [reflexivity|].
  cbn [short_runs collapse] in *. destruct (Ascii.eqb c JS.LF).
  - apply andb_true_iff in H. destruct H as [Hk H].
    apply Nat.ltb_lt in Hk.
    destruct (Nat.leb 2 k) eqn:E; [apply Nat.leb_le in E; lia|].
    now rewrite IH.
  - now rewrite IH.
Qed.

Lemma collapse_short_runs (s : string) (k : nat) :
  short_runs (Nat.min k 2) (collapse k s) = true.
Proof.
  revert k; induction s as [|c s IH]; intros k; [reflexivity|].
  cbn [collapse]. destruct (Ascii.eqb c JS.LF) eqn:Ec.
  - destruct (Nat.leb 2 k) eqn:E.
    + apply Nat.leb_le in E. specialize (IH (S k)).
      replace (Nat.min (S k) 2) with 2 in IH by lia.
      replace (Nat.min k 2) with 2 by lia. exact IH.
    + apply Nat.leb_gt in E. cbn [short_runs]. rewrite Ec.
      replace (Nat.min k 2) with k by lia.
      specialize (IH (S k)). replace (Nat.min (S k) 2) with (S k) in IH by lia.
      rewrite IH. apply andb_true_iff. split; [now apply Nat.ltb_lt | reflexivity].
  - cbn [short_runs]. rewrite Ec. apply (IH 0).
Qed.

Lemma short_runs_le (s : string) (j k : nat) :
  j <= k -> short_runs k s = true -> short_runs j s = true.
Proof.
  intros Hjk H. destruct s as [|c s]; [reflexivity|].
  cbn [short_runs] in *. destruct (Ascii.eqb c JS.LF); [|exact H].
  apply andb_true_iff in H. destruct H as [Hk H]. apply Nat.ltb_lt in Hk.
  apply andb_true_iff. split; [apply Nat.ltb_lt; lia|].
  revert j k Hjk Hk H. generalize s. clear s c.
  induction s as [|c s IH]; intros j k Hjk Hk H; [reflexivity|].
  cbn [short_runs] in *. destruct (Ascii.eqb c JS.LF); [|exact H].
  apply andb_true_iff in H. destruct H as [Hk' H]. apply Nat.ltb_lt in Hk'.
  apply andb_true_iff. split; [apply Nat.ltb_lt; lia|].
  apply (IH (S j) (S k)); [lia | lia | exact H].
Qed.

Lemma short_runs_trimStart (s : string) (k : nat) :
  short_runs k s = true -> short_runs 0 (JS.trimStart s) = true.
Proof.
  revert k; induction s as [|c s IH]; intros k H; [reflexivity|].
  cbn [JS.trimStart]. destruct (JS.is_space c).
  - cbn [short_runs] in H. destruct (Ascii.eqb c JS.LF).
    + apply andb_true_iff in H. destruct H as [_ H]. now apply (IH (S k)).
    + now apply (IH 0).
  - apply (short_runs_le _ 0 k); [lia | exact H].
Qed.

Lemma short_runs_trimEnd (s : string) (k : nat) :
  short_runs k s = true -> short_runs k (JS.trimEnd s) = true.
Proof.
  revert k; induction s as [|c s IH]; intros k H; [reflexivity|].
  cbn [JS.trimEnd]. cbn [short_runs] in H.
  destruct (JS.trimEnd s) as [|d r] eqn:E.
  - destruct (JS.is_space c); [reflexivity|].
    cbn [short_runs]. destruct (Ascii.eqb c JS.LF); [|reflexivity].
    apply andb_true_iff in H. destruct H as [Hk _]. now rewrite Hk.
  - cbn [short_runs]. fold (short_runs (S k) (String d r)).
    fold (short_runs 0 (String d r)). destruct (Ascii.eqb c JS.LF).
    + apply andb_true_iff in H. destruct H as [Hk H]. rewrite Hk.
      now apply IH.
    + now apply IH.
Qed.

Lemma trimEnd_cons (c : ascii) (r : string) :
  JS.is_space c = false -> exists r', JS.trimEnd (String c r) = String c r'.
Proof.
  intros Hc. cbn [JS.trimEnd]. destruct (JS.trimEnd r) as [|d r'].
  - rewrite Hc. now exists "".
  - now exists (String d r').
Qed.

Lemma trimEnd_unfold (c : ascii) (r : string) :
  JS.trimEnd (String c r)
  = match JS.trimEnd r with
    | EmptyString => if JS.is_space c then EmptyString else String c EmptyString
    | r' => String c r'
    end.
Proof. reflexivity. Qed.

Lemma trimEnd_idem (s : string) : JS.trimEnd (JS.trimEnd s) = JS.trimEnd s.
Proof.
  induction s as [|c s IH]; [reflexivity|].
  rewrite trimEnd_unfold. destruct (JS.trimEnd s) as [|d r] eqn:E.
  - destruct (JS.is_space c) eqn:Hc; [reflexivity|].
    rewrite trimEnd_unfold. cbn [JS.trimEnd]. now rewrite Hc.
  - rewrite trimEnd_unfold, IH. reflexivity.
Qed.

Lemma trimEnd_spaces (b : string) :
  JS.all JS.is_space b = true -> JS.trimEnd b = "".
Proof.
  induction b as [|c b IH]; [reflexivity|]. cbn [JS.all JS.trimEnd].
  intros H. apply andb_true_iff in H. destruct H as [Hc Hb].
  now rewrite (IH Hb), Hc.
Qed.

Lemma trimEnd_append_spaces (a b : string) :
  JS.all JS.is_space b = true -> JS.trimEnd (a ++ b) = JS.trimEnd a.
Proof.
  intros Hb. induction a as [|c a IH].
  - cbn [append]. now rewrite trimEnd_spaces.
  - cbn [append JS.trimEnd]. now rewrite IH.
Qed.

Lemma trimStart_head (s : string) :
  JS.trimStart s = ""
  \/ exists c r, JS.trimStart s = String c r /\ JS.is_space c = false.
Proof.
  induction s as [|c s IH]; [now left|].
  cbn [JS.trimStart]. destruct (JS.is_space c) eqn:Hc; [exact IH|].
  right. now exists c, s.
Qed.

(** A trimmed string is empty or starts with a character that is no space,
    and trimming its end changes nothing. *)
Lemma trim_shape (s : string) :
  JS.trimEnd (JS.trim s) = JS.trim s
  /\ (JS.trim s = ""
      \/ exists c r, JS.trim s = String c r /\ JS.is_space c = false).
Proof.
  unfold JS.trim. split; [apply trimEnd_idem|].
  destruct (trimStart_head s) as [-> | (c & r & -> & Hc)]; [now left|].
  destruct (trimEnd_cons c r Hc) as [r' ->]. right. now exists c, r'.
Qed.

Lemma trim_append_nl (t : string) :
  JS.trimEnd t = t ->
  (t = "" \/ exists c r, t = String c r /\ JS.is_space c = false) ->
  JS.trim (t ++ nl) = t.
Proof.
  intros He [-> | (c & r & -> & Hc)]; [reflexivity|].
  unfold JS.trim. cbn [append JS.trimStart]. rewrite Hc.
  change (String c (r ++ nl)) with (String c r ++ nl).
  rewrite trimEnd_append_spaces; [exact He | reflexivity].
Qed.

Lemma trimEnd_fixed_cons (c : ascii) (t : string) :
  JS.trimEnd (String c t) = String c t ->
  (t = "" /\ JS.is_space c = false) \/ (JS.trimEnd t = t /\ t <> "").
Proof.
  rewrite trimEnd_unfold. destruct (JS.trimEnd t) as [|d r] eqn:E.
  - destruct (JS.is_space c); [discriminate|].
    intros He. inversion He. now left.
  - intros He. injection He as Ht. right. split; congruence.
Qed.

Lemma space_LF (c : ascii) : JS.is_space c = false -> Ascii.eqb c JS.LF = false.
Proof.
  intros Hc. destruct (Ascii.eqb c JS.LF) eqn:X; [|reflexivity].
  apply Ascii.eqb_eq in X. subst c. discriminate Hc.
Qed.

Lemma short_runs_append_nl (t : string) (k : nat) :
  short_runs k t = true ->
  JS.trimEnd t = t ->
  (t = "" -> k < 2) ->
  short_runs k (t ++ nl) = true.
Proof.
  revert k; induction t as [|c t IH]; intros k H He Hk.
  - change (short_runs k ("" ++ nl)) with (Nat.ltb k 2 && true).
    apply andb_true_iff. split; [apply Nat.ltb_lt; now apply Hk | reflexivity].
  - cbn [append short_runs] in *.
    destruct (trimEnd_fixed_cons c t He) as [[-> Hc] | [Ht Hne]].
    + rewrite (space_LF c Hc). reflexivity.
    + destruct (Ascii.eqb c JS.LF).
      * apply andb_true_iff in H. destruct H as [Hk' H]. rewrite Hk'.
        apply IH; [exact H | exact Ht | intros ->; congruence].
      * apply IH; [exact H | exact Ht | intros ->; congruence].
Qed.

(** C9. The composer is idempotent: composing its own result returns that
    result, for every output buffer.  Of the white-space set the proof uses
    only that it contains the line feed. *)
Theorem compose_idempotent (output : string) :
  compose (compose output) = compose output.
Proof.
  destruct (trim_shape (collapse 0 output)) as [He Hs].
  assert (R : short_runs 0 (JS.trim (collapse 0 output)) = true).
  { unfold JS.trim. apply short_runs_trimEnd.
    apply (short_runs_trimStart _ 0). apply (collapse_short_runs output 0). }
  unfold compose. set (t := JS.trim (collapse 0 output)) in *.
  rewrite (short_runs_collapse (t ++ nl) 0).
  - now rewrite (trim_append_nl t He Hs).
  - apply short_runs_append_nl; [exact R | exact He | lia].
Qed.

(** ** The loops of [every] *)

Lemma concat_empty_cons (x : string) (xs : list string) :
  JS.join "" (x :: xs) = x ++ JS.join "" xs.
Proof.
  unfold JS.join. destruct xs as [|y ys]; cbn [String.concat].
  - now rewrite append_nil_r.
  - reflexivity.
Qed.

Lemma loop_ends_comm (names : list (string * option pin)) :
  ("end loop;" ++ nl) ++ JS.join "" (loop_ends names)
  = JS.join "" (loop_ends names) ++ "end loop;" ++ nl.
Proof.
  unfold loop_ends. generalize ("end loop;" ++ nl) as e. intros e.
  induction names as [|x names IH].
  - cbn [map JS.join String.concat]. now rewrite append_nil_r.
  - cbn [map]. rewrite concat_empty_cons, append_assoc. now rewrite <- IH.
Qed.

(** The text [case 'every'] appends is the rendering of the nested loops. *)
Lemma loop_heads_render (sync : string) (sigs : list (string * pin)) (i : nat) :
  exists hs,
    loop_heads i (known sigs) = Ok hs
    /\ JS.join "" hs ++ ("wait for " ++ sync ++ ";" ++ nl)
       ++ JS.join "" (loop_ends (known sigs))
       = Vhdl.render (nest i sigs sync).
Proof.
  revert i; induction sigs as [|[n p] sigs IH]; intros i.
  - exists []. split; [reflexivity|].
    cbn [known map loop_ends JS.join String.concat nest Vhdl.render append].
    now rewrite !append_assoc, append_nil_r.
  - destruct (IH (S i)) as (hs & Hhs & Hr).
    eexists. cbn [known map loop_heads deref bind fst snd].
    fold (known sigs). rewrite Hhs. cbn [bind]. split; [reflexivity|].
    rewrite concat_empty_cons.
    change (loop_ends ((n, Some p) :: known sigs))
      with (("end loop;" ++ nl) :: loop_ends (known sigs)).
    rewrite concat_empty_cons, loop_ends_comm.
    cbn [nest Vhdl.render]. rewrite <- Hr.
    rewrite !append_assoc. reflexivity.
Qed.







Lemma span_append (p : ascii -> bool) (a : string) (c : ascii) (r : string) :
  JS.all p a = true -> p c = false ->
  JS.span p (a ++ String c r) = (a, String c r).
Proof.
  intros Ha Hc. induction a as [|x a IH]; cbn [append JS.span].
  - now rewrite Hc.
  - cbn [JS.all] in Ha. apply andb_true_iff in Ha. destruct Ha as [Hx Ha].
    now rewrite Hx, (IH Ha).
Qed.

Lemma split_join (l : list string) :
  l <> [] ->
  Forall (fun k => without ","%char k = true) l ->
  JS.split "," (JS.join "," l) = l.
Proof.
  intros Hne H. induction H as [|k l Hk Hl IH]; [congruence|].
  unfold JS.join in *. cbn [String.concat]. destruct l as [|k' l'].
  - clear IH Hne. unfold without in Hk.
    induction k as [|c k IHk]; [reflexivity|].
    cbn [JS.all] in Hk. apply andb_true_iff in Hk. destruct Hk as [Hc Hk].
    cbn [JS.split]. apply negb_true_iff in Hc. rewrite Hc. now rewrite (IHk Hk).
  - assert (IH' := IH ltac:(discriminate)). clear IH Hne.
    set (rest := String.concat "," (k' :: l')) in *.
    change ("," ++ rest) with (String "," rest). unfold without in Hk.
    induction k as [|c k IHk]; cbn [append JS.split].
    + cbn [Ascii.eqb Bool.eqb]. now rewrite IH'.
    + cbn [JS.all] in Hk. apply andb_true_iff in Hk. destruct Hk as [Hc Hk].
      apply negb_true_iff in Hc. rewrite Hc. now rewrite (IHk Hk).
Qed.

Lemma plain_names_project (l : list string) :
  Forall (fun k => plain_name k = true) l ->
  Forall (fun k => without ","%char k = true) l
  /\ filter JS.truthy l = l
  /\ map JS.trim l = l
  /\ Forall (fun k => JS.array_index k = None) l.
Proof.
  induction 1 as [|k l Hk _ (I1 & I2 & I3 & I4)]; [repeat split; constructor|].
  unfold plain_name in Hk. apply andb_true_iff in Hk. destruct Hk as [Hk Hi].
  apply andb_true_iff in Hk. destruct Hk as [Hk Ht].
  apply andb_true_iff in Hk. destruct Hk as [Hn Hc].
  apply String.eqb_eq in Ht.
  repeat split.
  - now constructor.
  - cbn [filter]. now rewrite Hn, I2.
  - cbn [map]. now rewrite Ht, I3.
  - constructor; [|exact I4]. now destruct (JS.array_index k).
Qed.

Lemma get_entries (p : JS.obj pin) :
  NoDup (map fst p) ->
  map (fun n => (n, JS.get p n)) (map fst p) = known p.
Proof.
  intros H. unfold known.
  assert (G : forall q, (forall e, In e q -> JS.get p (fst e) = Some (snd e)) ->
                map (fun n => (n, JS.get p n)) (map fst q)
                = map (fun s => (fst s, Some (snd s))) q).
  { induction q as [|e q IH]; intros Hq; [reflexivity|]. cbn [map].
    rewrite (Hq e) by (now left). f_equal. apply IH. intros e' He'.
    apply Hq. now right. }
  apply G. clear G. induction p as [|[k v] p IH]; intros e He; [destruct He|].
  inversion H as [|? ? Hk Hp]; subst. cbn [JS.get]. destruct He as [<- | He].
  - cbn [fst snd]. now rewrite String.eqb_refl.
  - destruct (String.eqb k (fst e)) eqn:E.
    + apply String.eqb_eq in E. exfalso. apply Hk. rewrite E.
      apply in_map_iff. now exists e.
    + now apply IH.
Qed.

(** *** Reading the emitted loops back *)


































(** ** The README example, end to end *)

Example readme_half_adder :
  generate [ha] readme_comments
  = Ok "library ieee;
use ieee.std_logic_1164.all;

entity ha_tb is end;

architecture tb of ha_tb is
component ha is port (a, b : in std_logic; s, co : out std_logic);
end component;

signal a : std_logic;
signal b : std_logic;
signal s : std_logic;
signal co : std_logic;
signal tb_done : bit := '0';
begin
dut : ha port map(a => a, b => b, s => s, co => co);

process
begin
for i_0 in 0 to 1 loop
a <= std_logic'val(i_0);
for i_1 in 0 to 1 loop
b <= std_logic'val(i_1);
wait for 1 ns;
end loop;
end loop;

tb_done <= '1';
wait;
end process;
end;
".
Proof. vm_compute. reflexivity. Qed.

(* ================================================================= *)
(** * Further properties of the code *)

(** ** The output composer, continued *)

(** X1. The text written never holds three line feeds in a row. *)
Theorem compose_short_runs (output : string) : short_runs 0 (compose output) = true.
Proof.
  destruct (trim_shape (collapse 0 output)) as [He _].
  unfold compose. apply short_runs_append_nl; [|exact He | lia].
  unfold JS.trim. apply short_runs_trimEnd.
  apply (short_runs_trimStart _ 0). apply (collapse_short_runs output 0).
Qed.

Lemma trim_fixed (t : string) :
  JS.trimEnd t = t ->
  (t = "" \/ exists c r, t = String c r /\ JS.is_space c = false) ->
  JS.trim t = t.
Proof.
  intros He [-> | (c & r & -> & Hc)]; [reflexivity|].
  unfold JS.trim. cbn [JS.trimStart]. now rewrite Hc.
Qed.

Lemma trim_idem (s : string) : JS.trim (JS.trim s) = JS.trim s.
Proof. destruct (trim_shape s) as [He Hs]. now apply trim_fixed. Qed.

(** X2. The text written is a trimmed text followed by one line feed: it ends
    with exactly one line feed and starts with no white space, unless it is
    the line feed alone. *)
Theorem compose_shape (output : string) :
  exists t, compose output = t ++ nl /\ JS.trim t = t.
Proof.
  exists (JS.trim (collapse 0 output)). split; [reflexivity | apply trim_idem].
Qed.

Lemma collapse_spaces (s : string) (k : nat) :
  JS.all JS.is_space s = true -> JS.all JS.is_space (collapse k s) = true.
Proof.
  revert k; induction s as [|c s IH]; intros k H; [reflexivity|].
  cbn [JS.all] in H. apply andb_true_iff in H. destruct H as [Hc Hs].
  cbn [collapse]. destruct (Ascii.eqb c JS.LF); [destruct (Nat.leb 2 k)|];
    cbn [JS.all]; rewrite ?Hc; cbn [andb]; now apply IH.
Qed.

Lemma trimStart_spaces (s : string) :
  JS.all JS.is_space s = true -> JS.trimStart s = "".
Proof.
  induction s as [|c s IH]; [reflexivity|]. cbn [JS.all JS.trimStart].
  intros H. apply andb_true_iff in H. destruct H as [-> Hs]. now apply IH.
Qed.

(** X3. An output buffer of white space only, the empty buffer included, is
    written as a single line feed. *)
Theorem compose_blank (output : string) :
  JS.all JS.is_space output = true -> compose output = nl.
Proof.
  intros H. unfold compose, JS.trim.
  now rewrite (trimStart_spaces _ (collapse_spaces output 0 H)).
Qed.

Lemma compose_blank_witness : compose (" " ++ nl ++ nl ++ nl ++ nl) = nl.
Proof. apply (compose_blank (" " ++ nl ++ nl ++ nl ++ nl)). reflexivity. Defined.

Lemma solid_append (a b : string) : solid (a ++ b) = solid a ++ solid b.
Proof.
  induction a as [|c a IH]; [reflexivity|]. cbn [append solid].
  destruct (JS.is_space c); [exact IH | cbn [append]; now rewrite IH].
Qed.

Lemma solid_collapse (s : string) (k : nat) : solid (collapse k s) = solid s.
Proof.
  revert k; induction s as [|c s IH]; intros k; [reflexivity|].
  cbn [collapse]. destruct (Ascii.eqb c JS.LF) eqn:E.
  - apply Ascii.eqb_eq in E. subst c.
    destruct (Nat.leb 2 k); cbn [solid]; now rewrite ?IH.
  - cbn [solid]. now rewrite IH.
Qed.

Lemma solid_trimStart (s : string) : solid (JS.trimStart s) = solid s.
Proof.
  induction s as [|c s IH]; [reflexivity|]. cbn [JS.trimStart].
  destruct (JS.is_space c) eqn:E; [|reflexivity]. cbn [solid]. now rewrite E.
Qed.

Lemma solid_trimEnd (s : string) : solid (JS.trimEnd s) = solid s.
Proof.
  induction s as [|c s IH]; [reflexivity|]. rewrite trimEnd_unfold.
  cbn [solid]. rewrite <- IH. destruct (JS.trimEnd s) as [|d r].
  - destruct (JS.is_space c) eqn:E; cbn [solid]; now rewrite ?E.
  - cbn [solid]. reflexivity.
Qed.

(** X4. The composer touches white space only: the characters that are no white
    space are written as they were emitted, in the same order. *)
Theorem compose_solid (output : string) : solid (compose output) = solid output.
Proof.
  unfold compose, JS.trim.
  rewrite solid_append, solid_trimEnd, solid_trimStart, solid_collapse.
  apply append_nil_r.
Qed.

(** ** The directive interpreter, continued *)

Lemma is_case_neq (d : option string) (l : string) :
  d <> Some l -> is_case d l = false.
Proof.
  intros H. destruct (is_case d l) eqn:E; [|reflexivity].
  now apply is_case_eq in E.
Qed.

Lemma directive_other (T : tables) (m : machine) (st : tb_state)
    (raw : string) :
  state m = Some st ->
  (forall k, In k keywords -> keyword (JS.trim raw) <> Some k) ->
  directive T m (Some raw)
  = Ok {| output := output m;
          state := state m;
          console := (console m ++ [Warn ("Ignoring line comment: -- " ++ JS.trim raw)])%list |}.
Proof.
  intros Hst Hk. unfold directive, active. cbn [option_map assert_ok bind].
  rewrite Hst. cbn [negb andb].
  rewrite !is_case_neq by (apply Hk; simpl; tauto).
  cbn [orb]. unfold on_other. now rewrite Hst.
Qed.


(** X6. Inside a block, a comment whose first word is none of the keywords
    changes neither the output nor the state; it is reported by one warning
    that quotes the trimmed comment. *)
Theorem unknown_directive_is_ignored (T : tables) (m : machine) (st : tb_state)
    (raw : string) :
  state m = Some st ->
  (forall k, In k keywords -> keyword (JS.trim raw) <> Some k) ->
  directive T m (Some raw)
  = Ok {| output := output m;
          state := state m;
          console := (console m ++ [Warn ("Ignoring line comment: -- " ++ JS.trim raw)])%list |}.
Proof. exact (directive_other T m st raw). Qed.

Lemma unknown_directive_is_ignored_witness :
  directive ha_tables
    {| output := ""; state := Some defaultState; console := [] |}
    (Some " wait for it")
  = Ok {| output := ""; state := Some defaultState;
          console := [Warn "Ignoring line comment: -- wait for it"] |}.
Proof.
  apply (unknown_directive_is_ignored ha_tables
           {| output := ""; state := Some defaultState; console := [] |}
           defaultState " wait for it").
  - reflexivity.
  - intros k Hin. simpl in Hin.
    repeat (destruct Hin as [<- | Hin]; [discriminate|]). destruct Hin.
Defined.

Lemma split_empty_filtered (sep : ascii) :
  filter JS.truthy (JS.split sep "") = [].
Proof. reflexivity. Qed.

(** X8. Inside a block, [set (<defs>);] emits every non-empty piece of [<defs>]
    between semicolons, trimmed and closed by a semicolon, one per line, and
    then one wait for the sync duration followed by a blank line. *)
Theorem set_emits_assignments (T : tables) (m : machine) (st : tb_state)
    (raw defs : string) :
  state m = Some st ->
  JS.trim raw = "set (" ++ defs ++ ");" ->
  JS.truthy defs = true ->
  JS.all not_line_terminator defs = true ->
  directive T m (Some raw)
  = Ok (emit (emit m (JS.join "" (map (fun i => JS.trim i ++ ";" ++ nl)
                                      (filter JS.truthy (JS.split ";" defs)))))
             ("wait for " ++ sync st ++ ";" ++ nl ++ nl)).
Proof.
  intros Hst Htext Hd Hl. unfold directive, active.
  cbn [option_map assert_ok bind]. rewrite Hst, Htext. cbn [negb andb].
  change (keyword ("set (" ++ defs ++ ");")) with (Some "set").
  cbn [is_case String.eqb Ascii.eqb Bool.eqb]. unfold on_set.
  rewrite Hst. cbn [assert_ok bind].
  assert (E : re_set ("set (" ++ defs ++ ");") = Some defs).
  { unfold re_set. cbn [append JS.strip_prefix Ascii.eqb Bool.eqb].
    rewrite (strip_suffix_append ");" defs) by discriminate.
    now rewrite Hd, Hl. }
  rewrite E. unfold JS.or_else. rewrite Hd. reflexivity.
Qed.

Lemma set_emits_assignments_witness :
  directive ha_tables
    {| output := ""; state := Some defaultState; console := [] |}
    (Some " set (a <= '1'; b <= '0');")
  = Ok {| output := "a <= '1';" ++ nl ++ "b <= '0';" ++ nl
                    ++ "wait for 1 ns;" ++ nl ++ nl;
          state := Some defaultState; console := [] |}.
Proof.
  apply (set_emits_assignments ha_tables
           {| output := ""; state := Some defaultState; console := [] |}
           defaultState " set (a <= '1'; b <= '0');" "a <= '1'; b <= '0'");
    reflexivity.
Defined.

(** X9. Inside a block, a [set] directive that is not of the form [set (...);]
    emits no assignment: only the wait and the blank line. *)
Theorem set_malformed_only_waits (T : tables) (m : machine) (st : tb_state)
    (raw : string) :
  state m = Some st ->
  keyword (JS.trim raw) = Some "set" ->
  re_set (JS.trim raw) = None ->
  directive T m (Some raw)
  = Ok (emit m ("wait for " ++ sync st ++ ";" ++ nl ++ nl)).
Proof.
  intros Hst Hk Hre. dispatch Hst Hk. unfold on_set. rewrite Hst, Hre.
  cbn [assert_ok bind JS.or_else]. rewrite split_empty_filtered.
  unfold emit. cbn [map JS.join String.concat output state console].
  now rewrite append_nil_r.
Qed.

Lemma set_malformed_only_waits_witness :
  directive ha_tables
    {| output := ""; state := Some defaultState; console := [] |}
    (Some " set a <= '1';")
  = Ok {| output := "wait for 1 ns;" ++ nl ++ nl;
          state := Some defaultState; console := [] |}.
Proof.
  apply (set_malformed_only_waits ha_tables
           {| output := ""; state := Some defaultState; console := [] |}
           defaultState " set a <= '1';"); reflexivity.
Defined.

Lemma extends_refl (a : string) : extends a a.
Proof. exists "". now rewrite append_nil_r. Qed.

Lemma extends_trans (a b c : string) : extends a b -> extends b c -> extends a c.
Proof. intros [x ->] [y ->]. exists (x ++ y). apply append_assoc. Qed.

Lemma extends_append (a s : string) : extends a (a ++ s).
Proof. now exists s. Qed.

Lemma directive_extends (T : tables) (m m' : machine) (node : option string) :
  directive T m node = Ok m' -> extends (output m) (output m').
Proof.
  unfold directive. destruct node as [raw|]; [|discriminate].
  cbn [option_map assert_ok bind].
  destruct (negb (active m) && negb (JS.startsWith (JS.trim raw) "testbench ")).
  { intros H. inversion H. apply extends_refl. }
  repeat match goal with
         | |- (if ?b then _ else _) = _ -> _ => destruct b
         end.
  - unfold on_testbench. intros H. inversion H. cbn [output]. apply extends_append.
  - unfold on_sync. destruct (state m); [|discriminate]. cbn [assert_ok bind].
    intros H. inversion H. apply extends_refl.
  - unfold on_begin. destruct (state m) as [st|]; [|discriminate].
    cbn [assert_ok bind]. destruct (JS.properties _); [|discriminate].
    cbn [deref bind]. intros H. inversion H.
    destruct (JS.truthy (clock st)); unfold emit; cbn [output];
      repeat (eapply extends_trans; [|apply extends_append]); apply extends_refl.
  - unfold on_every. destruct (state m) as [st|]; [|discriminate].
    cbn [assert_ok bind]. destruct (every_names _ _); [|discriminate].
    cbn [bind]. destruct (loop_heads 0 _); [|discriminate]. cbn [bind].
    intros H. inversion H. unfold emit; cbn [output].
    repeat (eapply extends_trans; [|apply extends_append]); apply extends_refl.
  - unfold on_set. destruct (state m) as [st|]; [|discriminate].
    cbn [assert_ok bind]. intros H. inversion H. unfold emit; cbn [output].
    repeat (eapply extends_trans; [|apply extends_append]); apply extends_refl.
  - unfold on_end. destruct (state m) as [st|]; [|discriminate].
    cbn [assert_ok bind]. intros H. inversion H. cbn [output]. apply extends_append.
  - unfold on_other. intros H. inversion H. apply extends_refl.
Qed.

(** X10. The output buffer is append-only: whatever the directives, a run that
    succeeds leaves the buffer it started from as a prefix of the buffer it
    ends with. *)
Theorem second_pass_extends (T : tables) (nodes : list (option string))
    (m m' : machine) :
  second_pass_from T nodes m = Ok m' -> extends (output m) (output m').
Proof.
  revert m; induction nodes as [|node nodes IH]; intros m H;
    cbn [second_pass_from] in H.
  - inversion H. apply extends_refl.
  - destruct (directive T m node) as [m1|] eqn:D; [|discriminate].
    cbn [bind] in H. apply (extends_trans _ (output m1)).
    + exact (directive_extends _ _ _ _ D).
    + now apply IH.
Qed.

Lemma second_pass_extends_witness :
  extends "-- kept" 
    ("-- kept" ++ "tb_done <= '1';" ++ nl ++ "wait;" ++ nl ++ "end process;" ++ nl
     ++ "end;" ++ nl ++ nl).
Proof.
  apply (second_pass_extends ha_tables [Some " end;"]
           {| output := "-- kept"; state := Some defaultState; console := [] |}
           {| output := "-- kept" ++ "tb_done <= '1';" ++ nl ++ "wait;" ++ nl
                        ++ "end process;" ++ nl ++ "end;" ++ nl ++ nl;
              state := None;
              console := [Log "Generated testbench  for ."] |}).
  reflexivity.
Defined.

(** X11. The second pass ends on a failed assertion exactly when it reaches a
    comment node without a child: no directive, in whatever order, makes an
    [assert.ok(state)] fail. *)
Theorem second_pass_assertion (T : tables) (nodes : list (option string)) (m : machine) :
  second_pass_from T nodes m = Err AssertionError
  <-> exists pre post m',
        nodes = (pre ++ None :: post)%list /\ second_pass_from T pre m = Ok m'.
Proof.
  split.
  - revert m; induction nodes as [|node nodes IH]; intros m H;
      cbn [second_pass_from] in H; [discriminate|].
    destruct (directive T m node) as [m1|e] eqn:D; cbn [bind] in H.
    + destruct (IH _ H) as (pre & post & m' & -> & Hpre).
      exists (node :: pre), post, m'. split; [reflexivity|].
      cbn [second_pass_from]. now rewrite D.
    + inversion H; subst e. destruct node as [raw|].
      * now apply directive_no_assertion in D.
      * exists [], nodes, m. split; reflexivity.
  - intros (pre & post & m' & -> & Hpre).
    rewrite second_pass_from_app, Hpre. reflexivity.
Qed.



Lemma second_pass_assertion_witness :
  second_pass_from ha_tables ([Some " note"] ++ None :: [Some " end;"]) start
  = Err AssertionError.
Proof.
  apply (proj2 (second_pass_assertion ha_tables
                  ([Some " note"] ++ None :: [Some " end;"]) start)).
  exists [Some " note"], [Some " end;"], start. split; reflexivity.
Defined.

Lemma split_word (w rest : string) :
  without " "%char w = true ->
  JS.split " " (w ++ String " " rest) = w :: JS.split " " rest.
Proof.
  unfold without. induction w as [|c w IH]; intros H; [reflexivity|].
  cbn [JS.all] in H. apply andb_true_iff in H. destruct H as [Hc Hw].
  cbn [append JS.split]. apply negb_true_iff in Hc. rewrite Hc.
  now rewrite (IH Hw).
Qed.

Lemma split_last_word (w : string) :
  without " "%char w = true -> JS.split " " w = [w].
Proof.
  unfold without. induction w as [|c w IH]; intros H; [reflexivity|].
  cbn [JS.all] in H. apply andb_true_iff in H. destruct H as [Hc Hw].
  cbn [JS.split]. apply negb_true_iff in Hc. rewrite Hc. now rewrite (IH Hw).
Qed.

Lemma startsWith_append (p r : string) : JS.startsWith (p ++ r) p = true.
Proof.
  unfold JS.startsWith. induction p as [|a p IH].
  - now destruct r.
  - cbn [append String.prefix]. now destruct (ascii_dec a a).
Qed.

(** X13. [testbench <name> of <entity> is], in any state, opens a block for
    [<entity>]: the testbench is called [<entity>_tb] when [<name>] is [tb] and
    [<entity>_tb_<name>] otherwise, and the directive emits what the table of
    clauses gives for the entity, a blank line and the empty entity
    declaration of the testbench. *)
Theorem testbench_names (T : tables) (m : machine) (raw name ent : string) :
  JS.trim raw = "testbench " ++ name ++ " of " ++ ent ++ " is" ->
  JS.truthy name = true -> without " "%char name = true ->
  JS.truthy ent = true -> without " "%char ent = true ->
  let tb := if String.eqb name "tb" then ent ++ "_tb" else ent ++ "_tb_" ++ name in
  directive T m (Some raw)
  = Ok {| output := output m ++ JS.interpolate (JS.read (entityClauses T) ent) ++ nl
                    ++ "entity " ++ tb ++ " is end;" ++ nl ++ nl;
          state := Some {| entity := Some ent; testbench := tb;
                           sync := "1 ns"; clock := "" |};
          console := console m |}.
Proof.
  intros Htext Hn Hns He Hes tb.
  rewrite (directive_testbench T m raw); rewrite Htext;
    [| reflexivity | right; apply (startsWith_append "testbench ")].
  unfold on_testbench.
  change ("testbench " ++ name ++ " of " ++ ent ++ " is")
    with ("testbench" ++ String " " (name ++ String " " ("of" ++ String " " (ent ++ String " " "is")))).
  rewrite (split_word "testbench") by reflexivity.
  rewrite (split_word name) by exact Hns.
  rewrite (split_word "of") by reflexivity.
  rewrite (split_word ent) by exact Hes.
  rewrite (split_last_word "is") by reflexivity.
  cbn [filter JS.truthy JS.is_empty negb]. rewrite Hn, He.
  cbn [nth_error is_case JS.show entity testbench sync clock defaultState].
  reflexivity.
Qed.

Lemma testbench_names_witness :
  directive ha_tables start (Some " testbench wide of ha is")
  = Ok {| output := output start
                    ++ JS.interpolate (JS.read (entityClauses ha_tables) "ha") ++ nl
                    ++ "entity " ++ "ha_tb_wide" ++ " is end;" ++ nl ++ nl;
          state := Some {| entity := Some "ha"; testbench := "ha_tb_wide";
                           sync := "1 ns"; clock := "" |};
          console := console start |}.
Proof.
  apply (testbench_names ha_tables start " testbench wide of ha is" "wide" "ha");
    reflexivity.
Defined.

(** *** The [sync] directive *)

Lemma upper_word (a : ascii) : JS.is_word (JS.upper a) = JS.is_word a.
Proof. destruct a as [[] [] [] [] [] [] [] []]; reflexivity. Qed.

Lemma upper_space (a : ascii) :
  Ascii.eqb (JS.upper " ") (JS.upper a) = true -> a = " "%char.
Proof.
  destruct a as [[] [] [] [] [] [] [] []]; intros H;
    first [reflexivity | discriminate H].
Qed.

Lemma ci_word (x a : ascii) :
  JS.is_word x = true -> Ascii.eqb (JS.upper x) (JS.upper a) = true ->
  JS.is_word a = true.
Proof.
  intros Hx E. apply Ascii.eqb_eq in E.
  now rewrite <- upper_word, <- E, upper_word.
Qed.

(** Where [every ] matches, ignoring case, the text starts with a word that
    ends at a space. *)
Lemma every_prefix_span (s r : string) :
  JS.strip_prefix_ci "every " s = Some r ->
  exists a, JS.span JS.is_word s = (a, String " " r).
Proof.
  intros H.
  destruct s as [|c1 [|c2 [|c3 [|c4 [|c5 [|c6 s]]]]]];
    cbn [JS.strip_prefix_ci] in H;
    repeat match type of H with
           | (if ?b then _ else _) = _ =>
               let E := fresh "E" in destruct b eqn:E; [|discriminate H]
           end;
    try discriminate H.
  inversion H; subst r. apply upper_space in E4. subst c6.
  exists (String c1 (String c2 (String c3 (String c4 (String c5 ""))))).
  cbn [JS.span].
  rewrite (ci_word "e" c1), (ci_word "v" c2), (ci_word "e" c3),
    (ci_word "r" c4), (ci_word "y" c5) by (reflexivity || assumption).
  reflexivity.
Qed.

Lemma every_at_word (prev : option ascii) (w rest : string) :
  JS.all JS.is_word w = true ->
  every_at prev (w ++ String ")" rest) = None.
Proof.
  intros Hw. unfold every_at.
  destruct (JS.strip_prefix_ci "every " (w ++ String ")" rest)) as [r|] eqn:E.
  - apply every_prefix_span in E. destruct E as [a E].
    rewrite (span_append JS.is_word w ")" rest Hw) in E by reflexivity.
    discriminate E.
  - now destruct (word_boundary _ _).
Qed.

Lemma search_every_step (prev : option ascii) (c : ascii) (r : string) :
  every_at prev (String c r) = None ->
  search_every prev (String c r) = search_every (Some c) r.
Proof. intros H. cbn [search_every]. now rewrite H. Qed.

Lemma search_every_clock (w dur : string) (prev : option ascii) :
  JS.all JS.is_word w = true ->
  JS.truthy dur = true ->
  JS.all not_line_terminator dur = true ->
  search_every prev (w ++ String ")" (" every " ++ dur ++ ";")) = Some dur.
Proof.
  intros Hw Hd Hl. revert prev. induction w as [|c w IH]; intros prev.
  - cbn [append]. rewrite search_every_step
      by (apply (every_at_word prev "" (" every " ++ dur ++ ";")); reflexivity).
    rewrite search_every_step by reflexivity.
    cbn [search_every]. unfold every_at.
    cbn [first_char word_boundary word_char xorb JS.strip_prefix_ci append].
    change (JS.is_word "e") with true. cbn [xorb].
    change (Ascii.eqb (JS.upper "e") (JS.upper "e")) with true.
    change (Ascii.eqb (JS.upper "v") (JS.upper "v")) with true.
    change (Ascii.eqb (JS.upper "r") (JS.upper "r")) with true.
    change (Ascii.eqb (JS.upper "y") (JS.upper "y")) with true.
    change (Ascii.eqb (JS.upper " ") (JS.upper " ")) with true.
    cbn iota. rewrite (strip_suffix_append ";" dur) by discriminate.
    now rewrite Hd, Hl.
  - cbn [append]. rewrite search_every_step.
    + apply IH. cbn [JS.all] in Hw. now apply andb_true_iff in Hw.
    + apply (every_at_word prev (String c w)). exact Hw.
Qed.

(** X14. Inside a block, [sync (<clk>) every <dur>;] with an identifier [<clk>]
    sets the clock to [<clk>] and the sync duration to [<dur>], and leaves the
    entity, the testbench name, the output and the console as they were. *)
Theorem sync_clock_sets_both (T : tables) (m : machine) (st : tb_state)
    (raw clk dur : string) :
  state m = Some st ->
  JS.trim raw = "sync (" ++ clk ++ ") every " ++ dur ++ ";" ->
  JS.truthy clk = true ->
  JS.all JS.is_word clk = true ->
  JS.truthy dur = true ->
  JS.all not_line_terminator dur = true ->
  directive T m (Some raw)
  = Ok {| output := output m;
          state := Some {| entity := entity st;
                           testbench := testbench st;
                           sync := dur;
                           clock := clk |};
          console := console m |}.
Proof.
  intros Hst Htext Hc Hw Hd Hl. unfold directive, active.
  cbn [option_map assert_ok bind]. rewrite Hst, Htext. cbn [negb andb].
  change (keyword ("sync (" ++ clk ++ ") every " ++ dur ++ ";")) with (Some "sync").
  cbn [is_case String.eqb Ascii.eqb Bool.eqb]. unfold on_sync.
  rewrite Hst. cbn [assert_ok bind].
  assert (E1 : re_sync_every ("sync (" ++ clk ++ ") every " ++ dur ++ ";") = Some dur).
  { unfold re_sync_every. cbn [append].
    do 6 (rewrite search_every_step by reflexivity).
    apply (search_every_clock clk dur _ Hw Hd Hl). }
  assert (E2 : re_sync_clock ("sync (" ++ clk ++ ") every " ++ dur ++ ";") = Some clk).
  { unfold re_sync_clock. cbn [append JS.strip_prefix Ascii.eqb Bool.eqb].
    change (String ")" (String " " (String "e" (String "v" (String "e"
              (String "r" (String "y" (String " " (dur ++ ";")))))))))
      with (String ")" (" every " ++ dur ++ ";")).
    rewrite (span_append not_rparen clk ")" (" every " ++ dur ++ ";")).
    - rewrite Hc. reflexivity.
    - clear -Hw. induction clk as [|c clk IH]; [reflexivity|].
      cbn [JS.all] in *. apply andb_true_iff in Hw. destruct Hw as [Hc Hw].
      rewrite (IH Hw), andb_true_r. unfold not_rparen.
      destruct (Ascii.eqb c ")") eqn:E; [|reflexivity].
      apply Ascii.eqb_eq in E. subst c. discriminate Hc.
    - reflexivity. }
  rewrite E1, E2. unfold JS.or_else. now rewrite Hd, Hc.
Qed.

Lemma sync_clock_sets_both_witness :
  directive ha_tables
    {| output := ""; state := Some defaultState; console := [] |}
    (Some " sync (clk) every 10 ns;")
  = Ok {| output := "";
          state := Some {| entity := entity defaultState;
                           testbench := testbench defaultState;
                           sync := "10 ns"; clock := "clk" |};
          console := [] |}.
Proof.
  apply (sync_clock_sets_both ha_tables
           {| output := ""; state := Some defaultState; console := [] |}
           defaultState " sync (clk) every 10 ns;" "clk" "10 ns"); reflexivity.
Defined.

Lemma strip_prefix_ci_append (p s r : string) :
  JS.strip_prefix_ci p s = Some r -> exists a, s = a ++ r.
Proof.
  revert s; induction p as [|x p IH]; intros s H; cbn [JS.strip_prefix_ci] in H.
  - inversion H. now exists "".
  - destruct s as [|c s]; [discriminate|].
    destruct (Ascii.eqb (JS.upper x) (JS.upper c)); [|discriminate].
    destruct (IH _ H) as [a ->]. now exists (String c a).
Qed.

Lemma strip_suffix_inv (p s x : string) :
  JS.strip_suffix p s = Some x -> s = x ++ p.
Proof.
  revert x; induction s as [|c s IH]; intros x H; cbn [JS.strip_suffix] in H.
  - destruct (String.eqb "" p) eqn:E; [|discriminate].
    apply String.eqb_eq in E. now inversion H.
  - destruct (String.eqb (String c s) p) eqn:E.
    + apply String.eqb_eq in E. now inversion H.
    + destruct (JS.strip_suffix p s) as [y|]; [|discriminate].
      inversion H. cbn [append]. now rewrite (IH y).
Qed.

Lemma search_every_semicolon (s x : string) (prev : option ascii) :
  search_every prev s = Some x -> exists y, s = y ++ ";".
Proof.
  revert prev; induction s as [|c s IH]; intros prev H; cbn [search_every] in H.
  - unfold every_at in H. destruct (word_boundary _ _); discriminate H.
  - destruct (every_at prev (String c s)) as [z|] eqn:A.
    + unfold every_at in A. destruct (word_boundary _ _); [|discriminate].
      destruct (JS.strip_prefix_ci _ _) as [r|] eqn:P; [|discriminate].
      destruct (JS.strip_suffix ";" r) as [u|] eqn:S; [|discriminate].
      apply strip_prefix_ci_append in P. destruct P as [a ->].
      apply strip_suffix_inv in S. subst r.
      exists (a ++ u). now rewrite append_assoc.
    + destruct (IH _ H) as [y ->]. now exists (String c y).
Qed.

(** X15. Inside a block, a [sync] directive whose text does not end with a
    semicolon sets the sync duration to the default ["1 ns"], whatever
    duration it names. *)
Theorem sync_without_semicolon (T : tables) (m : machine) (st : tb_state)
    (raw : string) :
  state m = Some st ->
  keyword (JS.trim raw) = Some "sync" ->
  (forall y, JS.trim raw <> y ++ ";") ->
  directive T m (Some raw)
  = Ok {| output := output m;
          state := Some {| entity := entity st;
                           testbench := testbench st;
                           sync := "1 ns";
                           clock := JS.or_else (re_sync_clock (JS.trim raw)) "" |};
          console := console m |}.
Proof.
  intros Hst Hk Hno. dispatch Hst Hk. unfold on_sync. rewrite Hst.
  cbn [assert_ok bind].
  destruct (re_sync_every (JS.trim raw)) as [x|] eqn:E; [|reflexivity].
  apply search_every_semicolon in E. destruct E as [y E]. now apply Hno in E.
Qed.

Lemma sync_without_semicolon_witness :
  directive ha_tables
    {| output := "";
       state := Some {| entity := Some "ha"; testbench := "ha_tb";
                        sync := "5 ns"; clock := "" |};
       console := [] |}
    (Some " sync (a) every 20 ns")
  = Ok {| output := "";
          state := Some {| entity := Some "ha"; testbench := "ha_tb";
                           sync := "1 ns";
                           clock := JS.or_else
                                      (re_sync_clock (JS.trim " sync (a) every 20 ns")) "" |};
          console := [] |}.
Proof.
  apply (sync_without_semicolon ha_tables
           {| output := "";
              state := Some {| entity := Some "ha"; testbench := "ha_tb";
                               sync := "5 ns"; clock := "" |};
              console := [] |}
           {| entity := Some "ha"; testbench := "ha_tb"; sync := "5 ns"; clock := "" |}
           " sync (a) every 20 ns").
  - reflexivity.
  - reflexivity.
  - intros y E. apply (f_equal (JS.strip_suffix ";")) in E.
    rewrite strip_suffix_append in E by discriminate.
    vm_compute in E. discriminate E.
Defined.

(** *** The [every] directive *)

(** X16. Inside a block, an [every] directive without a parenthesised list (the
    word [every] alone, say) ranges over all the ports of the entity in
    declaration order: it emits the nested loops over the whole port table. *)
Theorem every_without_list (T : tables) (m : machine) (st : tb_state)
    (p : JS.obj pin) (raw : string) :
  state m = Some st ->
  JS.get (entityPins T) (JS.show (entity st)) = Some p ->
  keyword (JS.trim raw) = Some "every" ->
  re_every_list (JS.trim raw) = None ->
  Forall (fun k => plain_name k = true) (map fst p) ->
  NoDup (map fst p) ->
  every_signals (JS.trim raw) p = map fst p
  /\ directive T m (Some raw)
     = Ok (emit m (Vhdl.render (nest 0 p (sync st)) ++ nl)).
Proof.
  intros Hst Hp Hk Hre Hplain Hnd.
  destruct (plain_names_project _ Hplain) as (Hc & Hf & Ht & Hi).
  assert (K : JS.keys p = map fst p).
  { unfold JS.keys. now rewrite (entries_named p Hi). }
  assert (S : map JS.trim (filter JS.truthy (JS.split "," (JS.join "," (JS.keys p))))
              = map fst p).
  { rewrite K. destruct (map fst p) as [|k ks] eqn:E; [reflexivity|].
    rewrite split_join; [|discriminate | exact Hc]. now rewrite Hf, Ht. }
  split.
  - unfold every_signals, every_source. rewrite Hre. cbn [deref bind]. exact S.
  - dispatch Hst Hk. unfold on_every. rewrite Hst. cbn [assert_ok bind].
    rewrite (properties_own _ _ _ Hp). unfold every_names, every_source. rewrite Hre.
    cbn [deref bind]. rewrite S, mapM_with_pin, (get_entries p Hnd). cbn [bind].
    destruct (loop_heads_render (sync st) p 0) as (hs & -> & Hr).
    cbn [bind]. f_equal. unfold emit. cbn [output state console].
    f_equal. rewrite <- Hr. now rewrite !append_assoc.
Qed.

Lemma every_without_list_witness :
  exists p,
    JS.get (entityPins ha_tables) "ha" = Some p
    /\ every_signals (JS.trim " every") p = ["a"; "b"; "s"; "co"]
    /\ directive ha_tables
         {| output := "";
            state := Some {| entity := Some "ha"; testbench := "ha_tb";
                             sync := "1 ns"; clock := "" |};
            console := [] |}
         (Some " every")
       = Ok (emit {| output := "";
                     state := Some {| entity := Some "ha"; testbench := "ha_tb";
                                      sync := "1 ns"; clock := "" |};
                     console := [] |}
                  (Vhdl.render (nest 0 p "1 ns") ++ nl)).
Proof.
  destruct (JS.get (entityPins ha_tables) "ha") as [p|] eqn:G; [|discriminate G].
  exists p. split; [reflexivity|].
  assert (K : map fst p = ["a"; "b"; "s"; "co"]).
  { vm_compute in G. inversion G. reflexivity. }
  rewrite <- K.
  apply (every_without_list ha_tables
           {| output := "";
              state := Some {| entity := Some "ha"; testbench := "ha_tb";
                               sync := "1 ns"; clock := "" |};
              console := [] |}
           {| entity := Some "ha"; testbench := "ha_tb"; sync := "1 ns"; clock := "" |}
           p " every").
  - reflexivity.
  - exact G.
  - reflexivity.
  - reflexivity.
  - rewrite K. repeat constructor.
  - rewrite K. repeat constructor; simpl; intuition discriminate.
Defined.

Lemma loop_heads_known (names : list (string * option pin)) (i : nat) :
  Forall (fun n => snd n <> None) names -> exists hs, loop_heads i names = Ok hs.
Proof.
  intros H; revert i; induction H as [|[n info] names Hn _ IH]; intros i.
  - now exists [].
  - cbn [snd] in Hn. destruct info as [q|]; [|congruence].
    cbn [loop_heads deref bind]. destruct (IH (S i)) as [hs ->].
    cbn [bind]. eexists. reflexivity.
Qed.

(** X17. In a block whose entity is in the tables, every directive succeeds,
    except an [every] that ranges over a name the port table does not have:
    apart from that, no comment can end the run. *)
Theorem directive_in_known_block_succeeds (T : tables) (m : machine) (st : tb_state)
    (p : JS.obj pin) (raw : string) :
  state m = Some st ->
  JS.get (entityPins T) (JS.show (entity st)) = Some p ->
  (keyword (JS.trim raw) = Some "every" ->
   Forall (fun n => JS.get p n <> None) (every_signals (JS.trim raw) p)) ->
  exists m', directive T m (Some raw) = Ok m'.
Proof.
  intros Hst Hp Hev. unfold directive, active. cbn [option_map assert_ok bind].
  rewrite Hst. cbn [negb andb].
  destruct (is_case (keyword (JS.trim raw)) "testbench"); [eexists; reflexivity|].
  destruct (is_case (keyword (JS.trim raw)) "sync").
  { unfold on_sync. rewrite Hst. eexists; reflexivity. }
  destruct (is_case (keyword (JS.trim raw)) "begin").
  { unfold on_begin. rewrite Hst. cbn [assert_ok bind]. rewrite (properties_own _ _ _ Hp).
    eexists; reflexivity. }
  destruct (is_case (keyword (JS.trim raw)) "every") eqn:E.
  { apply is_case_eq in E. specialize (Hev E).
    unfold on_every. rewrite Hst. cbn [assert_ok bind]. rewrite (properties_own _ _ _ Hp).
    unfold every_signals in Hev. unfold every_names.
    destruct (every_source (JS.trim raw) (Some p)) as [src|e] eqn:S.
    - cbn [bind]. rewrite mapM_with_pin. cbn [bind].
      destruct (loop_heads_known
                  (map (fun n => (n, JS.get p n))
                       (map JS.trim (filter JS.truthy (JS.split "," src)))) 0)
        as [hs ->].
      + apply Forall_map. exact Hev.
      + cbn [bind]. eexists; reflexivity.
    - exfalso. unfold every_source in S.
      destruct (re_every_list (JS.trim raw)) as [l|];
        [destruct (JS.truthy l)|]; discriminate S. }
  destruct (is_case (keyword (JS.trim raw)) "set").
  { unfold on_set. rewrite Hst. eexists; reflexivity. }
  destruct (is_case (keyword (JS.trim raw)) "end" || is_case (keyword (JS.trim raw)) "end;").
  { unfold on_end. rewrite Hst. eexists; reflexivity. }
  eexists; reflexivity.
Qed.

Lemma directive_in_known_block_succeeds_witness :
  exists m',
    directive ha_tables
      {| output := "";
         state := Some {| entity := Some "ha"; testbench := "ha_tb";
                          sync := "1 ns"; clock := "" |};
         console := [] |}
      (Some " every (b, a);") = Ok m'.
Proof.
  destruct (JS.get (entityPins ha_tables) "ha") as [p|] eqn:G; [|discriminate G].
  apply (directive_in_known_block_succeeds ha_tables _
           {| entity := Some "ha"; testbench := "ha_tb"; sync := "1 ns"; clock := "" |}
           p " every (b, a);").
  - reflexivity.
  - exact G.
  - intros _. vm_compute in G. inversion G; subst p.
    repeat constructor; discriminate.
Defined.

(** X7. Only [end;] is accepted with something attached to the keyword: inside a
    block, a comment whose first word is [testbench], [sync], [begin], [every]
    or [set] directly followed by more characters (as in [begin;], [every;]
    or [every(a);]) is not taken as that directive; it is ignored with a
    warning. *)
Theorem glued_keyword_is_ignored (T : tables) (m : machine) (st : tb_state)
    (raw k x : string) :
  state m = Some st ->
  In k ["testbench"; "sync"; "begin"; "every"; "set"] ->
  x <> "" ->
  keyword (JS.trim raw) = Some (k ++ x) ->
  directive T m (Some raw)
  = Ok {| output := output m;
          state := state m;
          console := (console m ++ [Warn ("Ignoring line comment: -- " ++ JS.trim raw)])%list |}.
Proof.
  intros Hst Hin Hx Hk. apply (directive_other T m st raw Hst).
  intros k' Hk' E. rewrite Hk in E. inversion E as [E'].
  destruct x as [|c x]; [congruence|]. clear -Hin Hk' E'.
  simpl in Hin, Hk'.
  repeat (destruct Hin as [<- | Hin]; [
    repeat (destruct Hk' as [<- | Hk']; [discriminate E'|]); destruct Hk' |]).
  destruct Hin.
Qed.

Lemma glued_keyword_is_ignored_witness :
  directive ha_tables
    {| output := ""; state := Some defaultState; console := [] |}
    (Some " every;")
  = Ok {| output := ""; state := Some defaultState;
          console := [Warn "Ignoring line comment: -- every;"] |}.
Proof.
  apply (glued_keyword_is_ignored ha_tables
           {| output := ""; state := Some defaultState; console := [] |}
           defaultState " every;" "every" ";").
  - reflexivity.
  - simpl. tauto.
  - discriminate.
  - reflexivity.
Defined.

(** ** The first pass, continued *)









Lemma add_ports_get (ports : list string) (q : pin) (o : JS.obj pin) (k : string) :
  JS.get (add_ports ports q o) k
  = if existsb (fun port => String.eqb (JS.trim port) k) ports
    then Some q else JS.get o k.
Proof.
  unfold add_ports. revert o; induction ports as [|port ports IH]; intros o;
    cbn [fold_left existsb]; [reflexivity|].
  rewrite IH, get_set.
  destruct (existsb _ ports); [now rewrite orb_true_r|].
  now rewrite orb_false_r.
Qed.

(** X20. The bounds are resolved once for a port group: after a group is added,
    each of its ports, looked up by its trimmed name, has the group's mode,
    type and bounds, and every other name has what it had before. *)
Theorem group_ports_share_pin (o o' : JS.obj pin) (c c' : list message)
    (int : interface_declaration) :
  add_interface (o, c) int = Ok (o', c') ->
  (forall port, In port (int_ports int) ->
                JS.get o' (JS.trim port) = Some (group_pin int))
  /\ (forall k, ~ In k (map JS.trim (int_ports int)) -> JS.get o' k = JS.get o k).
Proof.
  rewrite add_interface_outcome. destruct (interface_error int); [discriminate|].
  intros H. inversion H; subst. split.
  - intros port Hin. rewrite add_ports_get.
    replace (existsb _ (int_ports int)) with true; [reflexivity|].
    symmetry. apply existsb_exists. exists port. split; [exact Hin|].
    apply String.eqb_refl.
  - intros k Hk. rewrite add_ports_get.
    destruct (existsb _ (int_ports int)) eqn:E; [|reflexivity].
    apply existsb_exists in E. destruct E as (port & Hin & E).
    apply String.eqb_eq in E. exfalso. apply Hk. apply in_map_iff. now exists port.
Qed.

Lemma group_ports_share_pin_witness :
  JS.get (add_ports ["a"; "b"] (group_pin (std_logic_ports ["a"; "b"] "in")) [])
         (JS.trim "a")
  = Some (group_pin (std_logic_ports ["a"; "b"] "in"))
  /\ JS.get (add_ports ["a"; "b"] (group_pin (std_logic_ports ["a"; "b"] "in")) [])
            (JS.trim "b")
     = Some (group_pin (std_logic_ports ["a"; "b"] "in")).
Proof.
  pose proof (proj1 (group_ports_share_pin [] _ [] []
                       (std_logic_ports ["a"; "b"] "in") eq_refl)) as H.
  split; apply H; simpl; tauto.
Defined.

Lemma clauses_fold (clauses : list string) (acc : string) :
  fold_left (fun c sub => c ++ sub ++ nl) clauses acc
  = acc ++ JS.join "" (map (fun sub => sub ++ nl) clauses).
Proof.
  revert acc; induction clauses as [|x clauses IH]; intros acc; cbn [fold_left map].
  - cbn [JS.join String.concat]. now rewrite append_nil_r.
  - rewrite IH, concat_empty_cons. now rewrite !append_assoc.
Qed.

(** X21. When an entity name is declared again, the later declaration replaces
    the clauses and the head text of the earlier one, while the ports are
    merged: the earlier ports keep their places and the names that are new
    are added after them in first-seen order. *)
Theorem entity_redeclared (T T' : tables) (c c' : list message)
    (node : entity_declaration) (h : entity_head) (e : string) (o : JS.obj pin) :
  add_entity (T, c) node = Ok (T', c') ->
  ent_name node = Some e ->
  ent_head node = Some h ->
  JS.get (entityPins T) e = Some o ->
  JS.get (entityClauses T') e
  = Some (JS.join "" (map (fun sub => sub ++ nl) (ent_clauses node)))
  /\ JS.get (entityHeads T') e = Some (head_text h)
  /\ exists pins,
       JS.get (entityPins T') e = Some pins
       /\ map fst pins
          = (map fst o ++ first_seen (map fst o) (declared_ports h))%list.
Proof.
  unfold add_entity. intros H Hn Hh Ho. rewrite Hn, Hh, pins_or_empty in H.
  unfold pins_of in H. rewrite Ho in H.
  destruct (JS.truthy e); [|discriminate]. cbn [deref bind] in H.
  destruct (add_interfaces _ _) as [[pins c1]|] eqn:A; [|discriminate].
  cbn [bind fst snd] in H. inversion H; subst.
  cbn [entityClauses entityPins entityHeads].
  rewrite !get_set, String.eqb_refl, clauses_fold. repeat split.
  exists pins. split; [reflexivity|]. exact (add_interfaces_keys _ _ _ _ _ A).
Qed.

Lemma entity_redeclared_witness :
  exists T' c',
    add_entity (ha_tables, [])
      {| ent_name := Some "ha"; ent_clauses := ["use work.all;"];
         ent_head := Some {| head_text := "is port (b, c : in bit);";
                             head_interfaces :=
                               [{| int_ports := ["b"; "c"];
                                   int_indication := "simple_mode_indication";
                                   int_indication_children := 2;
                                   int_mode := "in"; int_type := "bit";
                                   int_range := None |}] |} |}
    = Ok (T', c')
    /\ JS.get (entityHeads T') "ha" = Some "is port (b, c : in bit);"
    /\ exists pins, JS.get (entityPins T') "ha" = Some pins
                    /\ map fst pins = ["a"; "b"; "s"; "co"; "c"].
Proof.
  destruct (add_entity (ha_tables, [])
      {| ent_name := Some "ha"; ent_clauses := ["use work.all;"];
         ent_head := Some {| head_text := "is port (b, c : in bit);";
                             head_interfaces :=
                               [{| int_ports := ["b"; "c"];
                                   int_indication := "simple_mode_indication";
                                   int_indication_children := 2;
                                   int_mode := "in"; int_type := "bit";
                                   int_range := None |}] |} |})
    as [[T' c']|] eqn:A; [|discriminate A].
  destruct (JS.get (entityPins ha_tables) "ha") as [o|] eqn:G; [|discriminate G].
  destruct (entity_redeclared _ _ _ _ _ _ "ha" o A eq_refl eq_refl G)
    as (_ & Hh & pins & Hp & Hk).
  exists T', c'. split; [reflexivity|]. split; [exact Hh|].
  exists pins. split; [exact Hp|]. rewrite Hk.
  vm_compute in G. inversion G. reflexivity.
Defined.

Lemma getTypeBounds_warnings (type : string) (range : option simple_range) :
  List.length (snd (getTypeBounds type range))
  = if enumerable type range then 0 else 1.
Proof.
  unfold getTypeBounds, enumerable.
  destruct (scalar_type (match_word type)); [reflexivity|].
  destruct (vector_type (match_word type)); [|reflexivity].
  now destruct range.
Qed.

(** X22. The first pass warns once per port group whose type has no bounds, not
    once per port: the groups of an entity head add as many warnings to the
    console as there are groups with a type that is not enumerable, and the
    earlier messages stay in front. *)
Theorem one_warning_per_group (ints : list interface_declaration) :
  forall o c o' c',
    add_interfaces ints (o, c) = Ok (o', c') ->
    exists w,
      c' = (c ++ w)%list
      /\ List.length w
         = List.length
             (filter (fun int => negb (enumerable (int_type int) (int_range int))) ints).
Proof.
  induction ints as [|int ints IH]; intros o c o' c' H;
    cbn [add_interfaces] in H.
  - inversion H; subst. exists []. split; [now rewrite app_nil_r | reflexivity].
  - rewrite add_interface_outcome in H.
    destruct (interface_error int); [discriminate|].
    pose proof (getTypeBounds_warnings (int_type int) (int_range int)) as L.
    destruct (getTypeBounds (int_type int) (int_range int)) as [b w0].
    cbn [bind snd] in H, L. destruct (IH _ _ _ _ H) as (w & -> & Hw).
    exists (w0 ++ w)%list. split; [now rewrite app_assoc|].
    rewrite length_app, Hw, L. cbn [filter].
    now destruct (enumerable (int_type int) (int_range int)).
Qed.

Lemma one_warning_per_group_witness :
  exists o' c' w,
    add_interfaces
      [{| int_ports := ["x"; "y"; "z"]; int_indication := "simple_mode_indication";
          int_indication_children := 2;
          int_mode := "in"; int_type := "integer"; int_range := None |};
       std_logic_ports ["a"] "in"] ([], []) = Ok (o', c')
    /\ c' = ([] ++ w)%list /\ List.length w = 1.
Proof.
  destruct (add_interfaces
      [{| int_ports := ["x"; "y"; "z"]; int_indication := "simple_mode_indication";
          int_indication_children := 2;
          int_mode := "in"; int_type := "integer"; int_range := None |};
       std_logic_ports ["a"] "in"] ([], [])) as [[o' c']|] eqn:A; [|discriminate A].
  destruct (one_warning_per_group _ _ _ _ _ A) as (w & Hc & Hw).
  exists o', c', w. split; [reflexivity|]. split; [exact Hc | exact Hw].
Defined.

(** ** The type bound resolver, continued *)

Lemma lex_digit_step (acc : option Z) (c : ascii) (r : string) :
  JS.is_digit c = true -> Vhdl.lex acc (String c r) = Vhdl.lex (Vhdl.digit acc c) r.
Proof. intros H. cbn [Vhdl.lex]. now rewrite H. Qed.

Lemma lex_digits (d : Decimal.uint) (n : nat) (c : ascii) (rest : string) :
  JS.is_digit c = false ->
  Vhdl.lex (Some (Z.of_nat n)) (NilEmpty.string_of_uint d ++ String c rest)
  = Vhdl.lex (Some (Z.of_nat (Nat.of_uint_acc d n))) (String c rest).
Proof.
  intros Hc. revert n.
  induction d as [|d IH|d IH|d IH|d IH|d IH|d IH|d IH|d IH|d IH|d IH]; intros n;
    [reflexivity|..];
    cbn [NilEmpty.string_of_uint append Nat.of_uint_acc];
    rewrite lex_digit_step by reflexivity;
    rewrite <- IH; f_equal; unfold Vhdl.digit; f_equal;
    rewrite Nat.tail_mul_spec;
    match goal with
    | |- context [Z.of_N ?e] =>
        let v := eval vm_compute in (Z.of_N e) in change (Z.of_N e) with v
    end; lia.
Qed.

(** Reading the decimal form of a number yields that number. *)
Lemma lex_number (n : nat) (c : ascii) (rest : string) :
  JS.is_digit c = false ->
  Vhdl.lex None (JS.of_nat n ++ String c rest)
  = Vhdl.lex (Some (Z.of_nat n)) (String c rest).
Proof.
  intros Hc. unfold JS.of_nat, NilZero.string_of_uint.
  rewrite <- (DecimalNat.Unsigned.of_to n) at 2. unfold Nat.of_uint.
  destruct (Nat.to_uint n) as [|d|d|d|d|d|d|d|d|d|d];
    cbn [NilEmpty.string_of_uint append Nat.of_uint_acc];
    rewrite lex_digit_step by reflexivity;
    try (rewrite <- lex_digits by exact Hc; f_equal);
    reflexivity.
Qed.

Lemma lex_space (acc : option Z) (r : string) :
  Vhdl.lex acc (String " " r) = option_map (Vhdl.flush acc) (Vhdl.lex None r).
Proof. reflexivity. Qed.

Lemma lex_lparen (acc : option Z) (r : string) :
  Vhdl.lex acc (String "(" r)
  = option_map (fun ts => Vhdl.flush acc (Vhdl.TLParen :: ts)) (Vhdl.lex None r).
Proof. reflexivity. Qed.

Lemma lex_rparen (acc : option Z) (r : string) :
  Vhdl.lex acc (String ")" r)
  = option_map (fun ts => Vhdl.flush acc (Vhdl.TRParen :: ts)) (Vhdl.lex None r).
Proof. reflexivity. Qed.

Lemma lex_plus (acc : option Z) (r : string) :
  Vhdl.lex acc (String "+" r)
  = option_map (fun ts => Vhdl.flush acc (Vhdl.TPlus :: ts)) (Vhdl.lex None r).
Proof. reflexivity. Qed.

Lemma lex_minus (acc : option Z) (r : string) :
  Vhdl.lex acc (String "-" r)
  = option_map (fun ts => Vhdl.flush acc (Vhdl.TMinus :: ts)) (Vhdl.lex None r).
Proof. reflexivity. Qed.

Lemma lex_pow (acc : option Z) (r : string) :
  Vhdl.lex acc (String "*" (String "*" r))
  = option_map (fun ts => Vhdl.flush acc (Vhdl.TPow :: ts)) (Vhdl.lex None r).
Proof. reflexivity. Qed.

(** Steps the lexer over the text of a bound expression. *)
Ltac lex_steps :=
  cbn [append];
  repeat first
    [ rewrite lex_space | rewrite lex_lparen | rewrite lex_rparen
    | rewrite lex_plus | rewrite lex_minus | rewrite lex_pow
    | rewrite lex_number by reflexivity
    | rewrite lex_digit_step by reflexivity ];
  cbn [Vhdl.lex option_map Vhdl.flush].

Lemma lex_width (a b : nat) :
  Vhdl.lex None ("((" ++ JS.of_nat a ++ ") - (" ++ JS.of_nat b ++ ") + 1)")
  = Some [Vhdl.TLParen; Vhdl.TLParen; Vhdl.TNum (Z.of_nat a); Vhdl.TRParen;
          Vhdl.TMinus; Vhdl.TLParen; Vhdl.TNum (Z.of_nat b); Vhdl.TRParen;
          Vhdl.TPlus; Vhdl.TNum 1; Vhdl.TRParen].
Proof. lex_steps. reflexivity. Qed.

Lemma lex_high (a b : nat) :
  Vhdl.lex None ("2 ** " ++ ("((" ++ JS.of_nat a ++ ") - (" ++ JS.of_nat b ++ ") + 1)") ++ " - 1")
  = Some [Vhdl.TNum 2; Vhdl.TPow;
          Vhdl.TLParen; Vhdl.TLParen; Vhdl.TNum (Z.of_nat a); Vhdl.TRParen;
          Vhdl.TMinus; Vhdl.TLParen; Vhdl.TNum (Z.of_nat b); Vhdl.TRParen;
          Vhdl.TPlus; Vhdl.TNum 1; Vhdl.TRParen; Vhdl.TMinus; Vhdl.TNum 1].
Proof. rewrite !append_assoc. lex_steps. reflexivity. Qed.

Lemma expr_width (za zb : Z) :
  Vhdl.expr 48 [Vhdl.TLParen; Vhdl.TLParen; Vhdl.TNum za; Vhdl.TRParen;
                Vhdl.TMinus; Vhdl.TLParen; Vhdl.TNum zb; Vhdl.TRParen;
                Vhdl.TPlus; Vhdl.TNum 1; Vhdl.TRParen]
  = Some ((za - zb + 1)%Z, []).
Proof. cbn [Vhdl.expr Vhdl.rest Vhdl.factor Vhdl.primary]. reflexivity. Qed.

Lemma factor_pow (f : nat) (ts ts' ts'' : list Vhdl.token) (b e : Z) :
  Vhdl.primary f ts = Some (b, Vhdl.TPow :: ts') ->
  Vhdl.primary f ts' = Some (e, ts'') ->
  Vhdl.factor (S f) ts = if (0 <=? e)%Z then Some ((b ^ e)%Z, ts'') else None.
Proof. intros H1 H2. cbn [Vhdl.factor]. now rewrite H1, H2. Qed.

Lemma expr_unfold (f : nat) (ts : list Vhdl.token) :
  Vhdl.expr (S f) ts
  = match Vhdl.factor f ts with
    | Some (v, ts') => Vhdl.rest f v ts'
    | None => None
    end.
Proof. reflexivity. Qed.

Lemma primary_number (f : nat) (n : Z) (ts : list Vhdl.token) :
  Vhdl.primary (S f) (Vhdl.TNum n :: ts) = Some (n, ts).
Proof. reflexivity. Qed.

Lemma primary_width (za zb : Z) (ts : list Vhdl.token) :
  Vhdl.primary 62 (Vhdl.TLParen :: Vhdl.TLParen :: Vhdl.TNum za :: Vhdl.TRParen
                   :: Vhdl.TMinus :: Vhdl.TLParen :: Vhdl.TNum zb :: Vhdl.TRParen
                   :: Vhdl.TPlus :: Vhdl.TNum 1 :: Vhdl.TRParen :: ts)
  = Some ((za - zb + 1)%Z, ts).
Proof. cbn [Vhdl.expr Vhdl.rest Vhdl.factor Vhdl.primary]. reflexivity. Qed.

Lemma rest_minus_one (v : Z) : 
  Vhdl.rest 62 v [Vhdl.TMinus; Vhdl.TNum 1] = Some ((v - 1)%Z, []).
Proof. reflexivity. Qed.

Lemma expr_high (za zb : Z) :
  Vhdl.expr 64 [Vhdl.TNum 2; Vhdl.TPow;
                Vhdl.TLParen; Vhdl.TLParen; Vhdl.TNum za; Vhdl.TRParen;
                Vhdl.TMinus; Vhdl.TLParen; Vhdl.TNum zb; Vhdl.TRParen;
                Vhdl.TPlus; Vhdl.TNum 1; Vhdl.TRParen; Vhdl.TMinus; Vhdl.TNum 1]
  = if (0 <=? za - zb + 1)%Z then Some ((2 ^ (za - zb + 1) - 1)%Z, []) else None.
Proof.
  rewrite expr_unfold.
  rewrite (factor_pow 62 _ _ _ 2 (za - zb + 1) (primary_number 61 2 _)
             (primary_width za zb _)).
  destruct (0 <=? za - zb + 1)%Z; [|reflexivity].
  apply rest_minus_one.
Qed.

Lemma eval_width (a b : nat) :
  Vhdl.eval ("((" ++ JS.of_nat a ++ ") - (" ++ JS.of_nat b ++ ") + 1)")
  = Some (Z.of_nat a - Z.of_nat b + 1)%Z.
Proof.
  unfold Vhdl.eval. rewrite lex_width.
  change (4 * List.length _ + 4) with 48. rewrite expr_width. reflexivity.
Qed.

Lemma eval_high (a b : nat) :
  Vhdl.eval ("2 ** " ++ ("((" ++ JS.of_nat a ++ ") - (" ++ JS.of_nat b ++ ") + 1)") ++ " - 1")
  = if (0 <=? Z.of_nat a - Z.of_nat b + 1)%Z
    then Some (2 ^ (Z.of_nat a - Z.of_nat b + 1) - 1)%Z
    else None.
Proof.
  unfold Vhdl.eval. rewrite lex_high.
  change (4 * List.length _ + 4) with 64. rewrite expr_high.
  destruct (0 <=? _)%Z; reflexivity.
Qed.

Lemma range_size_power (w : Z) :
  (0 <= w)%Z -> Vhdl.range_size 0 (2 ^ w - 1) = 2 ^ Z.to_nat w.
Proof.
  intros H. unfold Vhdl.range_size.
  replace (2 ^ w - 1 - 0 + 1)%Z with (2 ^ w)%Z by lia.
  rewrite <- (Z2Nat.id w H) at 1.
  change 2%Z with (Z.of_nat 2). rewrite <- Nat2Z.inj_pow. apply Nat2Z.id.
Qed.

(** X23. For a vector type whose range has decimal bounds, the width expression
    has the value [right - left + 1] when the keyword is exactly [to] and
    [left - right + 1] for any other keyword text (so also for [TO] in upper
    case); the domain then has 2 to the width values when the width is not
    negative, and no size at all when it is. *)
Theorem vector_domain_size (type word : string) (a b : nat) :
  vector_type (match_word type) = true ->
  Vhdl.eval (length_expr {| left := JS.of_nat a; kind := word; right := JS.of_nat b |})
  = Some (width_value word a b)
  /\ ((0 <= width_value word a b)%Z ->
      domain_size (fst (getTypeBounds type
                          (Some {| left := JS.of_nat a; kind := word; right := JS.of_nat b |})))
      = Some (2 ^ Z.to_nat (width_value word a b)))
  /\ ((width_value word a b < 0)%Z ->
      domain_size (fst (getTypeBounds type
                          (Some {| left := JS.of_nat a; kind := word; right := JS.of_nat b |})))
      = None).
Proof.
  intros Hv.
  assert (D : domain_size (fst (getTypeBounds type
                (Some {| left := JS.of_nat a; kind := word; right := JS.of_nat b |})))
              = if (0 <=? width_value word a b)%Z
                then Some (Vhdl.range_size 0 (2 ^ width_value word a b - 1))
                else None).
  { unfold getTypeBounds. rewrite (vector_not_scalar _ Hv), Hv.
    unfold domain_size, length_expr, width_value. cbn [fst low high left right kind].
    change (Vhdl.eval "0") with (Some 0%Z).
    destruct (String.eqb word "to"); rewrite eval_high;
      destruct (0 <=? _)%Z; reflexivity. }
  split; [|split].
  - unfold length_expr, width_value. cbn [left right kind].
    destruct (String.eqb word "to"); apply eval_width.
  - intros H. rewrite D. apply Z.leb_le in H. rewrite H.
    apply Z.leb_le in H. rewrite range_size_power by exact H. reflexivity.
  - intros H. rewrite D. apply Z.leb_gt in H. rewrite H. reflexivity.
Qed.

Lemma vector_domain_size_witness :
  domain_size (fst (getTypeBounds "std_logic_vector(0 TO 7)"
                      (Some {| left := JS.of_nat 0; kind := "TO"; right := JS.of_nat 7 |})))
  = None.
Proof.
  apply (proj2 (proj2 (vector_domain_size "std_logic_vector(0 TO 7)" "TO" 0 7 eq_refl))).
  reflexivity.
Defined.

(** ** The run as a whole *)

Lemma replaceAll_without (a b : ascii) (s : string) :
  Ascii.eqb b a = false -> without a (replaceAll a b s) = true.
Proof.
  intros Hb. unfold without. induction s as [|c s IH]; [reflexivity|].
  cbn [replaceAll JS.all]. rewrite IH, andb_true_r.
  destruct (Ascii.eqb c a) eqn:E; [now rewrite Hb | now rewrite E].
Qed.

Lemma replaceAll_length (a b : ascii) (s : string) :
  String.length (replaceAll a b s) = String.length s.
Proof. induction s as [|c s IH]; [reflexivity|]. cbn [replaceAll String.length]. now rewrite IH. Qed.

Lemma replaceAll_get (a b : ascii) (s : string) (i : nat) :
  String.get i (replaceAll a b s)
  = option_map (fun c => if Ascii.eqb c a then b else c) (String.get i s).
Proof.
  revert i; induction s as [|c s IH]; intros i; [reflexivity|].
  cbn [replaceAll]. destruct i as [|i]; [reflexivity|]. cbn [String.get]. apply IH.
Qed.

(** X24. A non-empty second argument is the output path as it is.  Without it, or
    when it is empty, the file is written next to the input under the name
    [<stem>_tb.vhdl], where [<stem>] is the base name of the input without
    its [.vhdl] extension and with every dot replaced by an underscore: the
    stem has the length of that base name, at every position it has an
    underscore where the base name has a dot and the character of the base
    name otherwise, and so it holds no dot. *)
Theorem default_output_name (dirname : string -> string)
    (basename : string -> string -> string) (join : string -> string -> string)
    (inputPath : string) :
  (forall p, JS.truthy p = true ->
             outputPath dirname basename join inputPath (Some p) = p)
  /\ forall argv3, argv3 = None \/ argv3 = Some "" ->
       exists stem,
         outputPath dirname basename join inputPath argv3
         = join (dirname inputPath) (stem ++ "_tb.vhdl")
         /\ String.length stem = String.length (basename inputPath ".vhdl")
         /\ (forall i,
               String.get i stem
               = match String.get i (basename inputPath ".vhdl") with
                 | Some c => Some (if Ascii.eqb c "."%char then "_"%char else c)
                 | None => None
                 end)
         /\ without "."%char stem = true.
Proof.
  split.
  - intros p Hp. unfold outputPath, JS.or_else. now rewrite Hp.
  - intros argv3 H.
    exists (replaceAll "."%char "_"%char (basename inputPath ".vhdl")).
    split; [destruct H as [-> | ->]; reflexivity|].
    split; [apply replaceAll_length|].
    split; [|now apply replaceAll_without].
    intros i. rewrite replaceAll_get. now destruct (String.get i _).
Qed.

Lemma default_output_name_witness :
  exists stem,
    outputPath (fun _ => "src") (fun _ _ => "alu.v2") (fun d f => d ++ "/" ++ f)
      "src/alu.v2.vhdl" None
    = (fun d f => d ++ "/" ++ f) ((fun _ => "src") "src/alu.v2.vhdl") (stem ++ "_tb.vhdl")
    /\ String.length stem = String.length ((fun _ _ => "alu.v2") "src/alu.v2.vhdl" ".vhdl")
    /\ (forall i,
          String.get i stem
          = match String.get i ((fun _ _ => "alu.v2") "src/alu.v2.vhdl" ".vhdl") with
            | Some c => Some (if Ascii.eqb c "."%char then "_"%char else c)
            | None => None
            end)
    /\ without "."%char stem = true.
Proof.
  apply (proj2 (default_output_name (fun _ => "src") (fun _ _ => "alu.v2")
                  (fun d f => d ++ "/" ++ f) "src/alu.v2.vhdl") None).
  now left.
Defined.




Lemma collapse_run_witness :
  collapse 0 (line_feeds 5 ++ String "x" "y") = line_feeds (Nat.min 5 2) ++ String "x" (collapse 0 "y").
Proof. apply (collapse_run 5 "x" "y"). reflexivity. Defined.


Lemma or_else_truthy (o : option string) (d : string) :
  JS.truthy d = true -> JS.truthy (JS.or_else o d) = true.
Proof.
  intros Hd. unfold JS.or_else. destruct o as [x|]; [|exact Hd].
  destruct (JS.truthy x) eqn:E; [exact E | exact Hd].
Qed.

Lemma directive_ok (T : tables) (m m' : machine) (node : option string) :
  machine_ok m -> directive T m node = Ok m' -> machine_ok m'.
Proof.
  unfold directive. destruct node as [raw|]; [|discriminate].
  cbn [option_map assert_ok bind]. intros Hm.
  destruct (negb (active m) && negb (JS.startsWith (JS.trim raw) "testbench ")).
  { intros H. now inversion H; subst. }
  repeat match goal with
         | |- (if ?b then _ else _) = _ -> _ => destruct b
         end.
  - unfold on_testbench. intros H. inversion H. unfold machine_ok, state_ok.
    cbn [state sync testbench entity defaultState]. split; [reflexivity|].
    destruct (is_case _ "tb");
      [exists ""
      |exists ("_" ++ JS.show (nth_error (filter JS.truthy
                                            (JS.split " " (JS.trim raw))) 1))];
      reflexivity.
  - unfold on_sync. unfold machine_ok in Hm.
    destruct (state m) as [st|]; [|discriminate]. cbn [assert_ok bind].
    intros H. inversion H. unfold machine_ok, state_ok.
    cbn [state sync testbench entity]. destruct Hm as [_ Hs].
    split; [now apply or_else_truthy | exact Hs].
  - unfold on_begin. unfold machine_ok in Hm.
    destruct (state m) as [st|] eqn:Hst; [|discriminate].
    cbn [assert_ok bind]. destruct (JS.properties _); [|discriminate].
    cbn [deref bind]. intros H. inversion H. unfold machine_ok.
    destruct (JS.truthy (clock st)); unfold emit; cbn [state]; now rewrite Hst.
  - unfold on_every. unfold machine_ok in Hm.
    destruct (state m) as [st|] eqn:Hst; [|discriminate].
    cbn [assert_ok bind]. destruct (every_names _ _); [|discriminate].
    cbn [bind]. destruct (loop_heads 0 _); [|discriminate]. cbn [bind].
    intros H. inversion H. unfold machine_ok, emit. cbn [state]. now rewrite Hst.
  - unfold on_set. unfold machine_ok in Hm.
    destruct (state m) as [st|] eqn:Hst; [|discriminate].
    cbn [assert_ok bind]. intros H. inversion H. unfold machine_ok, emit.
    cbn [state]. now rewrite Hst.
  - unfold on_end. destruct (state m) as [st|]; [|discriminate].
    cbn [assert_ok bind]. intros H. inversion H. exact I.
  - unfold on_other. intros H. inversion H. exact Hm.
Qed.

(** X27. Whatever the comments, the generation state of a run always has a sync
    duration that is not empty, so that no [wait for ;] is ever emitted, and a
    testbench name that starts with the entity followed by [_tb]. *)
Theorem second_pass_state_ok (T : tables) (nodes : list (option string))
    (m : machine) (st : tb_state) :
  second_pass T nodes = Ok m -> state m = Some st -> state_ok st.
Proof.
  intros Hrun Hst.
  assert (G : forall nodes m0, machine_ok m0 ->
                second_pass_from T nodes m0 = Ok m -> machine_ok m).
  { clear. induction nodes as [|node nodes IH]; intros m0 H0 H;
      cbn [second_pass_from] in H.
    - now inversion H; subst.
    - destruct (directive T m0 node) as [m1|] eqn:D; [|discriminate].
      cbn [bind] in H. apply (IH m1); [|exact H].
      exact (directive_ok _ _ _ _ H0 D). }
  specialize (G nodes start I Hrun). unfold machine_ok in G. now rewrite Hst in G.
Qed.

Lemma second_pass_state_ok_witness :
  state_ok {| entity := Some "ha"; testbench := "ha_tb_two"; sync := "1 ns"; clock := "a" |}.
Proof.
  apply (second_pass_state_ok ha_tables
           [Some " testbench two of ha is"; Some " sync (a) every"]
           {| output := "library ieee;" ++ nl ++ "use ieee.std_logic_1164.all;" ++ nl
                        ++ nl ++ "entity ha_tb_two is end;" ++ nl ++ nl;
              state := Some {| entity := Some "ha"; testbench := "ha_tb_two";
                               sync := "1 ns"; clock := "a" |};
              console := [] |}).
  - reflexivity.
  - reflexivity.
Defined.

(** X28. A [testbench] directive with fewer than four words names no entity: it
    still opens a block, whose entity is undefined and whose name starts with
    [undefined_tb]; unless the tables have an entity called [undefined], the
    [begin] of that block ends the run with a type error. *)
Theorem testbench_incomplete (T : tables) (m : machine) (raw : string) :
  JS.startsWith (JS.trim raw) "testbench " = true ->
  nth_error (filter JS.truthy (JS.split " " (JS.trim raw))) 3 = None ->
  exists m1 st,
    directive T m (Some raw) = Ok m1
    /\ state m1 = Some st
    /\ entity st = None
    /\ JS.startsWith (testbench st) "undefined_tb" = true
    /\ forall rawb,
         JS.get (entityPins T) "undefined" = None ->
         keyword (JS.trim rawb) = Some "begin" ->
         directive T m1 (Some rawb) = Err TypeError.
Proof.
  intros Hp Hent.
  rewrite (directive_testbench T m raw (startsWith_testbench_keyword _ Hp) (or_intror Hp)).
  unfold on_testbench. rewrite Hent.
  eexists _, _. split; [reflexivity|]. cbn [state entity testbench JS.show].
  repeat split.
  - destruct (is_case _ "tb"); [reflexivity|].
    apply (startsWith_append "undefined_tb" ("_" ++ _)).
  - intros rawb Hpins Hb.
    eapply directive_begin_absent; [reflexivity | | exact Hb].
    cbn [entity JS.show]. now apply properties_undefined.
Qed.

Lemma testbench_incomplete_witness :
  exists m1 st,
    directive ha_tables start (Some " testbench tb ha") = Ok m1
    /\ state m1 = Some st
    /\ entity st = None
    /\ JS.startsWith (testbench st) "undefined_tb" = true
    /\ forall rawb,
         JS.get (entityPins ha_tables) "undefined" = None ->
         keyword (JS.trim rawb) = Some "begin" ->
         directive ha_tables m1 (Some rawb) = Err TypeError.
Proof.
  apply (testbench_incomplete ha_tables start " testbench tb ha"); reflexivity.
Defined.
